(** * Alert multiplets: a shallow embedding of [utils.py]

    The Python module works on NumPy float arrays and pandas tables.  The
    embedding keeps the control flow and the data flow of every function and
    replaces the double precision numbers by exact rationals, extended with
    the special values the NumPy kernels produce for a division by zero
    ([inf], [nan]).  Rounding is not modelled: every statement below is about
    the exact-arithmetic reading of the code. *)

From Stdlib Require Import String.
From Stdlib Require Import QArith Qminmax Qround ZArith List Bool Lia Lqa.
From Stdlib Require Import Permutation Morphisms Setoid.
Import ListNotations.

Local Open Scope Q_scope.

(** ** Numbers *)

Module Num.

(** A NumPy float without rounding: a rational, an infinity or [nan]. *)
Inductive ext : Type :=
| Fin (q : Q)
| PInf
| NInf
| NaN.

Definition ext_eq (a b : ext) : Prop :=
  match a, b with
  | Fin x, Fin y => x == y
  | PInf, PInf => True
  | NInf, NInf => True
  | NaN, NaN => True
  | _, _ => False
  end.

Definition Qeq_zero (x : Q) : bool := Qeq_bool x 0.
Definition Qpos (x : Q) : bool := negb (Qle_bool x 0).

(** [a + b] on floats. *)
Definition ext_add (a b : ext) : ext :=
  match a, b with
  | NaN, _ | _, NaN => NaN
  | Fin x, Fin y => Fin (x + y)
  | PInf, NInf | NInf, PInf => NaN
  | PInf, _ | _, PInf => PInf
  | NInf, _ | _, NInf => NInf
  end.

(** [a / b] on floats, as the NumPy kernel computes it (a warning, never an
    exception): [x / 0] is [inf] with the sign of [x], [0 / 0] is [nan].
    Every zero divisor in the module is a square or a sum of magnitudes, so
    the zero is the positive one. *)
Definition ext_div (a b : ext) : ext :=
  match a, b with
  | NaN, _ | _, NaN => NaN
  | Fin x, Fin y =>
      if Qeq_zero y then
        if Qeq_zero x then NaN else if Qpos x then PInf else NInf
      else Fin (x / y)
  | Fin _, _ => Fin 0
  | PInf, Fin y => if Qle_bool 0 y then PInf else NInf
  | NInf, Fin y => if Qle_bool 0 y then NInf else PInf
  | _, _ => NaN
  end.

(** [a <= b] on floats: false as soon as one side is [nan]. *)
Definition ext_leb (a b : ext) : bool :=
  match a, b with
  | NaN, _ | _, NaN => false
  | Fin x, Fin y => Qle_bool x y
  | NInf, _ => true
  | _, PInf => true
  | _, _ => false
  end.

(** Python's [x % m] on floats, for a positive [m]: the result has the sign
    of the divisor. *)
Definition py_mod (x m : Q) : Q := x - m * inject_Z (Qfloor (x / m)).

Definition ext_mod (a : ext) (m : Q) : ext :=
  match a with
  | Fin x => Fin (py_mod x m)
  | _ => NaN
  end.

End Num.
Import Num.

(** ** The ellipse membership test *)

(** One element of the structured array [points]. *)
Record point : Type := mkPoint { pRA : Q; pDEC : Q }.

Module Ellipse.

(** Lines 28-35: the relative right ascension, with the two corrections for
    an ellipse that reaches over 360 or under 0 degrees. *)
Definition rel_ra (p : point) (ra ra_min ra_max : Q) : Q :=
  let tmp_ra := pRA p - ra in
  let tmp_ra := if Qle_bool 360 (ra + ra_max) then py_mod tmp_ra 360 else tmp_ra in
  if Qle_bool (ra + ra_min) 0 then - (py_mod (- tmp_ra) 360) else tmp_ra.

(** Line 37. *)
Definition rel_dec (p : point) (dec : Q) : Q := pDEC p - dec.

(** [((x**2) / (a**2)) + ((y**2) / (b**2)) <= 1]. *)
Definition within_contour (x a y b : Q) : bool :=
  ext_leb (ext_add (ext_div (Fin (x ^ 2)) (Fin (a ^ 2)))
                   (ext_div (Fin (y ^ 2)) (Fin (b ^ 2))))
          (Fin 1).

(** Lines 40-43. *)
Definition mask1 (tmp_ra tmp_dec ra_min ra_max dec_min dec_max : Q) : bool :=
  let mask1 := Qle_bool 0 tmp_ra && Qle_bool tmp_ra ra_max in
  let mask1 := mask1 && (Qle_bool 0 tmp_dec && Qle_bool tmp_dec dec_max) in
  mask1 && within_contour tmp_ra ra_max tmp_dec dec_max.

(** Lines 46-49. *)
Definition mask2 (tmp_ra tmp_dec ra_min ra_max dec_min dec_max : Q) : bool :=
  let mask2 := Qle_bool 0 tmp_ra && Qle_bool tmp_ra ra_max in
  let mask2 := mask2 && (Qle_bool tmp_dec 0 && Qle_bool dec_min tmp_dec) in
  mask2 && within_contour tmp_ra ra_max tmp_dec dec_min.

(** Lines 52-55. *)
Definition mask3 (tmp_ra tmp_dec ra_min ra_max dec_min dec_max : Q) : bool :=
  let mask3 := Qle_bool tmp_ra 0 && Qle_bool ra_min tmp_ra in
  let mask3 := mask3 && (Qle_bool tmp_dec 0 && Qle_bool dec_min tmp_dec) in
  mask3 && within_contour tmp_ra ra_min tmp_dec dec_min.

(** Lines 58-61. *)
Definition mask4 (tmp_ra tmp_dec ra_min ra_max dec_min dec_max : Q) : bool :=
  let mask4 := Qle_bool tmp_ra 0 && Qle_bool ra_min tmp_ra in
  let mask4 := mask4 && (Qle_bool 0 tmp_dec && Qle_bool tmp_dec dec_max) in
  mask4 && within_contour tmp_ra ra_min tmp_dec dec_max.

(** [is_in_ellipse] at one point of the array; the mask of the source is
    this function mapped over [points]. *)
Definition is_in_ellipse (p : point) (ra dec : Q) (ra_err dec_err : Q * Q) : bool :=
  let ra_min := Qmin (fst ra_err) (snd ra_err) in
  let ra_max := Qmax (fst ra_err) (snd ra_err) in
  let dec_min := Qmin (fst dec_err) (snd dec_err) in
  let dec_max := Qmax (fst dec_err) (snd dec_err) in
  let tmp_ra := rel_ra p ra ra_min ra_max in
  let tmp_dec := rel_dec p dec in
  mask1 tmp_ra tmp_dec ra_min ra_max dec_min dec_max
  || mask2 tmp_ra tmp_dec ra_min ra_max dec_min dec_max
  || mask3 tmp_ra tmp_dec ra_min ra_max dec_min dec_max
  || mask4 tmp_ra tmp_dec ra_min ra_max dec_min dec_max.

(** The four quadrants of the error ellipse and what the source attaches to
    each: the signs of the offsets and the pair of semi-axes. *)
Inductive quadrant : Type := Quad1 | Quad2 | Quad3 | Quad4.

Definition semi_axes (q : quadrant) (ra_min ra_max dec_min dec_max : Q) : Q * Q :=
  match q with
  | Quad1 => (ra_max, dec_max)
  | Quad2 => (ra_max, dec_min)
  | Quad3 => (ra_min, dec_min)
  | Quad4 => (ra_min, dec_max)
  end.

Definition in_quadrant (q : quadrant) (dra ddec : Q) : Prop :=
  match q with
  | Quad1 => 0 <= dra /\ 0 <= ddec
  | Quad2 => 0 <= dra /\ ddec <= 0
  | Quad3 => dra <= 0 /\ ddec <= 0
  | Quad4 => dra <= 0 /\ 0 <= ddec
  end.

Definition quadrant_mask (q : quadrant) : Q -> Q -> Q -> Q -> Q -> Q -> bool :=
  match q with
  | Quad1 => mask1
  | Quad2 => mask2
  | Quad3 => mask3
  | Quad4 => mask4
  end.

(** The contour inequality of one quarter ellipse, over the rationals; a
    quotient by a zero semi-axis has no value, so the inequality asks for
    non-zero semi-axes. *)
Definition inside_contour (dra a ddec b : Q) : Prop :=
  ~ a == 0 /\ ~ b == 0 /\ dra ^ 2 / a ^ 2 + ddec ^ 2 / b ^ 2 <= 1.

Definition on_contour (dra a ddec b : Q) : Prop :=
  ~ a == 0 /\ ~ b == 0 /\ dra ^ 2 / a ^ 2 + ddec ^ 2 / b ^ 2 == 1.

(** Names for what the statements speak about: the two bounds of an error
    pair as [min] and [max] order them, the offsets of a point as the masks
    see them, and the semi-axes of a quadrant. *)
Definition lower (err : Q * Q) : Q := Qmin (fst err) (snd err).
Definition upper (err : Q * Q) : Q := Qmax (fst err) (snd err).

Definition dRA (p : point) (ra : Q) (ra_err : Q * Q) : Q :=
  rel_ra p ra (lower ra_err) (upper ra_err).
Definition dDEC (p : point) (dec : Q) : Q := rel_dec p dec.

Definition axis_ra (q : quadrant) (ra_err dec_err : Q * Q) : Q :=
  fst (semi_axes q (lower ra_err) (upper ra_err) (lower dec_err) (upper dec_err)).
Definition axis_dec (q : quadrant) (ra_err dec_err : Q * Q) : Q :=
  snd (semi_axes q (lower ra_err) (upper ra_err) (lower dec_err) (upper dec_err)).

Definition quadrant_eqb (q q' : quadrant) : bool :=
  match q, q' with
  | Quad1, Quad1 | Quad2, Quad2 | Quad3, Quad3 | Quad4, Quad4 => true
  | _, _ => false
  end.

Definition all_quadrants : list quadrant := [Quad1; Quad2; Quad3; Quad4].

Definition other_quadrants (q : quadrant) : list quadrant :=
  filter (fun q' => negb (quadrant_eqb q' q)) all_quadrants.

(** The mask of quadrant [q] as [is_in_ellipse] evaluates it at [p]. *)
Definition mask_at (q : quadrant) (p : point) (ra dec : Q) (ra_err dec_err : Q * Q)
  : bool :=
  quadrant_mask q (dRA p ra ra_err) (dDEC p dec)
                (lower ra_err) (upper ra_err) (lower dec_err) (upper dec_err).

End Ellipse.

(** ** Python values: exceptions and dictionaries *)

Module Py.

Inductive exn : Type := KeyError | TypeError | NameError.

(** The outcome of running a piece of Python: a value or a raised exception. *)
Inductive result (A : Type) : Type :=
| Ok (a : A)
| Raise (e : exn).
Arguments Ok {A} a.
Arguments Raise {A} e.

Definition bind {A B : Type} (m : result A) (f : A -> result B) : result B :=
  match m with
  | Ok a => f a
  | Raise e => Raise e
  end.

(** A [for] loop whose body may raise: the accumulator is threaded through
    the elements in order and the first exception ends the loop. *)
Fixpoint for_each {A S : Type} (l : list A) (body : S -> A -> result S) (s : S)
  : result S :=
  match l with
  | [] => Ok s
  | x :: r => bind (body s x) (for_each r body)
  end.

(** A [dict] with integer keys: the entries in insertion order. *)
Definition dict (V : Type) : Type := list (Z * V).

Definition keys {V : Type} (d : dict V) : list Z := map fst d.

Fixpoint dict_get {V : Type} (d : dict V) (k : Z) : option V :=
  match d with
  | [] => None
  | (k', v) :: r => if Z.eqb k k' then Some v else dict_get r k
  end.

(** [d[k]] as an expression. *)
Definition getitem {V : Type} (d : dict V) (k : Z) : result V :=
  match dict_get d k with
  | Some v => Ok v
  | None => Raise KeyError
  end.

(** [d[k] = v]: an existing key keeps its place, a new key goes last. *)
Fixpoint dict_set {V : Type} (d : dict V) (k : Z) (v : V) : dict V :=
  match d with
  | [] => [(k, v)]
  | (k', v') :: r => if Z.eqb k k' then (k', v) :: r else (k', v') :: dict_set r k v
  end.

(** [x in l] for a sequence of labels. *)
Definition mem (x : Z) (l : list Z) : bool := existsb (Z.eqb x) l.

End Py.
Import Py.

Notation "x <- m ;; k" := (bind m (fun x => k))
  (at level 61, m at next level, right associativity).

(** ** The catalog *)

(** One row of the [alerts] table, all fields in degrees. *)
Record Alert : Type := mkAlert {
  RA : Q;
  DEC : Q;
  RA_ERR_PLUS : Q;
  RA_ERR_MINUS : Q;
  DEC_ERR_PLUS : Q;
  DEC_ERR_MINUS : Q
}.

(** The data frame: the rows in order, each with its index label.  The labels
    of a catalog are unique; the statements that depend on it say so. *)
Definition catalog : Type := list (Z * Alert).

Definition index (alerts : catalog) : list Z := map fst alerts.

(** [alerts.loc[label]]. *)
Fixpoint loc (alerts : catalog) (label : Z) : result Alert :=
  match alerts with
  | [] => Raise KeyError
  | (l, a) :: r => if Z.eqb label l then Ok a else loc r label
  end.

(** An entry of the multiplet dictionary: a sequence of labels, or Python's
    [None] when no quadrant of the loop found a point. *)
Definition entry : Type := option (list Z).

Definition graph : Type := dict entry.

(** [len(v)]. *)
Definition len (v : entry) : result nat :=
  match v with
  | Some l => Ok (length l)
  | None => Raise TypeError
  end.

(** [x in v]. *)
Definition contains (v : entry) (x : Z) : result bool :=
  match v with
  | Some l => Ok (mem x l)
  | None => Raise TypeError
  end.

(** [for x in v]. *)
Definition iter (v : entry) : result (list Z) :=
  match v with
  | Some l => Ok l
  | None => Raise TypeError
  end.

(** ** The overlap graph and its resolution *)

Module Multiplets.

(** [Index.drop_duplicates()]: the first occurrence of every label stays. *)
Fixpoint drop_duplicates_from (seen l : list Z) : list Z :=
  match l with
  | [] => []
  | x :: r =>
      if mem x seen then drop_duplicates_from seen r
      else x :: drop_duplicates_from (x :: seen) r
  end.

Definition drop_duplicates (l : list Z) : list Z := drop_duplicates_from [] l.

(** [Index.drop(label)]. *)
Definition drop (label : Z) (l : list Z) : list Z :=
  filter (fun x => negb (Z.eqb x label)) l.

(** [np.linspace(start, stop, num)]: [num - 1] steps from [start], the last
    sample set to [stop]. *)
Definition linspace (start stop : Q) (num : nat) : list Q :=
  let step := (stop - start) / inject_Z (Z.of_nat (num - 1)) in
  map (fun k => inject_Z (Z.of_nat k) * step + start) (seq 0 (num - 1)) ++ [stop].

(** The three lists zipped by the loop of line 90. *)
Definition quadrants : list (Q * (Alert -> Q) * (Alert -> Q)) :=
  [ (0, RA_ERR_PLUS, DEC_ERR_PLUS);
    (90, RA_ERR_MINUS, DEC_ERR_PLUS);
    (180, RA_ERR_MINUS, DEC_ERR_MINUS);
    (270, RA_ERR_PLUS, DEC_ERR_MINUS) ].

Section Builder.

(** [np.cos(np.deg2rad(t))] and [np.sin(np.deg2rad(t))]: library functions,
    taken as parameters. *)
Variables cos_deg sin_deg : Q -> Q.

(** Lines 94-102: the 20 edge points of one alert for one quadrant. *)
Definition edge_points (theta : Q) (err_ra err_dec : Alert -> Q) (a : Alert)
  : list point :=
  map (fun t => mkPoint (err_ra a * cos_deg t + RA a) (err_dec a * sin_deg t + DEC a))
      (linspace theta (theta + 90) 20).

(** Lines 105-107: one row of the mask per alert of the catalog. *)
Definition in_ellipse_mask (alerts : catalog) (tmp_alerts : Alert)
  (theta : Q) (err_ra err_dec : Alert -> Q) : list (list bool) :=
  map (fun row =>
         map (fun p => Ellipse.is_in_ellipse p (RA tmp_alerts) (DEC tmp_alerts)
                         (RA_ERR_PLUS tmp_alerts, - RA_ERR_MINUS tmp_alerts)
                         (DEC_ERR_PLUS tmp_alerts, - DEC_ERR_MINUS tmp_alerts))
             (edge_points theta err_ra err_dec (snd row)))
      alerts.

(** [np.any(mask)]. *)
Definition any (mask : list (list bool)) : bool :=
  existsb (existsb (fun b => b)) mask.

(** [alerts[mask].index]: the label of a row once for every true cell of its
    row of the mask, in row order. *)
Definition masked_index (alerts : catalog) (mask : list (list bool)) : list Z :=
  flat_map (fun rm => map (fun _ => fst (fst rm)) (filter (fun b => b) (snd rm)))
           (combine alerts mask).

(** Lines 90-117: the body of the loop over the quadrants. *)
Definition quadrant_step (alerts : catalog) (tmp_index : Z) (tmp_alerts : Alert)
  (alerts_in_ellipse : entry) (q : Q * (Alert -> Q) * (Alert -> Q)) : entry :=
  let '(theta, err_ra, err_dec) := q in
  let mask := in_ellipse_mask alerts tmp_alerts theta err_ra err_dec in
  if any mask then
    let found :=
      match alerts_in_ellipse with
      | None => drop_duplicates (masked_index alerts mask)
      | Some l => drop_duplicates (l ++ masked_index alerts mask)
      end in
    if mem tmp_index found then Some (drop tmp_index found) else Some found
  else alerts_in_ellipse.

(** Lines 84-118: the touching set of one alert. *)
Definition touching (alerts : catalog) (tmp_index : Z) (tmp_alerts : Alert) : entry :=
  fold_left (quadrant_step alerts tmp_index tmp_alerts) quadrants None.

(** Lines 80-119: the dictionary before the double multiplets are resolved. *)
Definition build_multiplets (alerts : catalog) : result graph :=
  for_each (index alerts)
    (fun multiplets tmp_index =>
       tmp_alerts <- loc alerts tmp_index ;;
       Ok (dict_set multiplets tmp_index (touching alerts tmp_index tmp_alerts)))
    [].

End Builder.

(** Lines 131-141: the body of the inner loop. *)
Definition check_double (multiplets : graph) (_index : Z)
  (remove_multiplets_for_indices : list Z) (_mult_index : Z) : result (list Z) :=
  other <- getitem multiplets _mult_index ;;
  found <- contains other _index ;;
  if found then
    own <- getitem multiplets _index ;;
    n_own <- len own ;;
    n_other <- len other ;;
    if (n_own <? n_other)%nat then
      Ok (remove_multiplets_for_indices ++ [_index])
    else if (n_other <? n_own)%nat then
      Ok (remove_multiplets_for_indices ++ [_mult_index])
    else
      Ok (remove_multiplets_for_indices ++ [Z.max _index _mult_index])
  else Ok remove_multiplets_for_indices.

(** Lines 126-141: the list of the indices to empty. *)
Definition collect_removals (multiplets : graph) : result (list Z) :=
  for_each (keys multiplets)
    (fun remove_multiplets_for_indices _index =>
       own <- getitem multiplets _index ;;
       n <- len own ;;
       if (0 <? n)%nat then
         members <- iter own ;;
         for_each members (check_double multiplets _index)
                  remove_multiplets_for_indices
       else Ok remove_multiplets_for_indices)
    [].

(** Lines 143-144. *)
Definition apply_removals (multiplets : graph) (remove : list Z) : graph :=
  fold_left (fun m _index => dict_set m _index (Some [])) remove multiplets.

(** Lines 126-145: the resolution pass. *)
Definition resolve (multiplets : graph) : result graph :=
  remove_multiplets_for_indices <- collect_removals multiplets ;;
  Ok (apply_removals multiplets remove_multiplets_for_indices).

(** *** The two-pass reference

    The resolution as the specification words it: decide every removal from
    the graph as it came in, then apply the removals in a second pass. *)

Definition members (g : graph) (k : Z) : list Z :=
  match dict_get g k with
  | Some (Some l) => l
  | _ => []
  end.

Definition size (g : graph) (k : Z) : nat := length (members g k).

Definition mutual (g : graph) (a b : Z) : Prop :=
  In b (members g a) /\ In a (members g b).

(** The side of a mutual pair that is marked for removal. *)
Definition loser (g : graph) (a b : Z) : Z :=
  if (size g a <? size g b)%nat then a
  else if (size g b <? size g a)%nat then b
  else Z.max a b.

Definition decisions (g : graph) : list Z :=
  flat_map (fun a =>
              flat_map (fun b => if mem a (members g b) then [loser g a b] else [])
                       (members g a))
           (keys g).

Definition apply_decisions (g : graph) (marked : list Z) : graph :=
  map (fun kv => if mem (fst kv) marked then (fst kv, Some []) else kv) g.

Definition resolve_two_pass (g : graph) : graph := apply_decisions g (decisions g).

(** A multiplet graph: a dictionary (no key twice) whose entries are
    sequences of keys of the dictionary. *)
Definition well_formed (g : graph) : Prop :=
  NoDup (keys g) /\
  forall k v, In (k, v) g ->
    exists l, v = Some l /\ forall m, In m l -> In m (keys g).

(** [get_multiplet_index_dictionary]. *)
Definition get_multiplet_index_dictionary (cos_deg sin_deg : Q -> Q)
  (alerts : catalog) : result graph :=
  multiplets <- build_multiplets cos_deg sin_deg alerts ;;
  resolve multiplets.

End Multiplets.

(** ** The weighted position of a multiplet *)

Module Weighted.

(** A pair of per-axis values: a row [(RA, DEC)] of a two-column array. *)
Definition row : Type := (Q * Q)%type.
Definition erow : Type := (ext * ext)%type.

Section Aggregator.

(** [astropy.stats.circstats.circmean] on one column of angles in degrees
    with one column of weights, and [np.sqrt]: library functions, taken as
    parameters. *)
Variable circmean : list Q -> list ext -> ext.
Variable np_sqrt : ext -> ext.

(** [1 / sigma**2], cell by cell. *)
Definition inv_square (s : Q) : ext := ext_div (Fin 1) (Fin (s ^ 2)).

(** The built-in [sum] of one column: it starts from the integer 0. *)
Definition column_sum (w : list ext) : ext := fold_left ext_add w (Fin 0).

(** [get_weighted_coords], lines 154-157; [axis=0] treats the two columns
    separately. *)
Definition get_weighted_coords (x sigma : list row) : erow * erow :=
  let w_ra := map (fun s => inv_square (fst s)) sigma in
  let w_dec := map (fun s => inv_square (snd s)) sigma in
  let weighted_x_ :=
    (ext_mod (circmean (map fst x) w_ra) 360,
     ext_mod (circmean (map snd x) w_dec) 360) in
  let weighted_sigma_ :=
    (ext_div (Fin 1) (np_sqrt (column_sum w_ra)),
     ext_div (Fin 1) (np_sqrt (column_sum w_dec))) in
  (weighted_x_, weighted_sigma_).

(** The two rows an alert contributes (lines 167-169 and 172-174). *)
Definition position (a : Alert) : row := (RA a, DEC a).

Definition symmetrized_error (a : Alert) : row :=
  ((RA_ERR_PLUS a + RA_ERR_MINUS a) / 2, (DEC_ERR_PLUS a + DEC_ERR_MINUS a) / 2).

(** [get_multiplet_weighted_coords], lines 167-179. *)
Definition get_multiplet_weighted_coords (orig_index : Z) (multipl_indices : list Z)
  (alerts : catalog) : result (erow * erow) :=
  a <- loc alerts orig_index ;;
  xs <- for_each multipl_indices
          (fun acc tmp_index_2 =>
             a2 <- loc alerts tmp_index_2 ;;
             Ok (fst acc ++ [position a2], snd acc ++ [symmetrized_error a2]))
          ([position a], [symmetrized_error a]) ;;
  Ok (get_weighted_coords (fst xs) (snd xs)).

(** [go_through_multiplet_dict], lines 188-204. *)
Definition go_through_multiplet_dict (multiplet_dict : graph) (alerts : catalog)
  : result (dict erow * dict erow) :=
  for_each (keys multiplet_dict)
    (fun out tmp_index =>
       tmp_mult_indices <- getitem multiplet_dict tmp_index ;;
       n <- len tmp_mult_indices ;;
       if (0 <? n)%nat then
         members <- iter tmp_mult_indices ;;
         c <- get_multiplet_weighted_coords tmp_index members alerts ;;
         Ok (dict_set (fst out) tmp_index (fst c), dict_set (snd out) tmp_index (snd c))
       else Ok out)
    ([], []).

(** The names a function body can read: its local variables.  The module
    binds no global called [tmp_threshold], so a name that is not a local
    raises. *)
Definition load_name (locals : list (String.string * Z)) (name : String.string)
  : result Z :=
  match find (fun nv => String.eqb (fst nv) name) locals with
  | Some nv => Ok (snd nv)
  | None => Raise NameError
  end.

(** [go_through_threshold_multiplet_dict], lines 213-224.  The value stored
    under a threshold is a sequence whose item 1 is the multiplet
    dictionary; item 0 is not read. *)
Definition go_through_threshold_multiplet_dict {X : Type}
  (threshold_multiplet_dict : dict (X * graph)) (alerts : catalog)
  : result (dict (dict erow) * dict (dict erow)) :=
  for_each (keys threshold_multiplet_dict)
    (fun out tmp_area =>
       item <- getitem threshold_multiplet_dict tmp_area ;;
       let tmp_multiplets := snd item in
       w <- go_through_multiplet_dict tmp_multiplets alerts ;;
       if (0 <? length (fst w))%nat then
         tmp_threshold <- load_name [("tmp_area"%string, tmp_area)] "tmp_threshold" ;;
         Ok (dict_set (fst out) tmp_threshold (fst w),
             dict_set (snd out) tmp_threshold (snd w))
       else Ok out)
    ([], []).

End Aggregator.

End Weighted.

(** ** Vocabulary of the statements *)

Module Statements.
Import Multiplets.

(** Two graphs with the same keys and, under every key, the same members:
    the same mapping visited in another order. *)
Definition reordering (g g' : graph) : Prop :=
  Permutation (keys g) (keys g') /\
  forall k, Permutation (members g k) (members g' k).

(** What the statements about the overlap graph ask of the two library
    functions: equal angles give equal values, and the values on the axes
    are the exact ones. *)
Definition exact_on_axes (cos_deg sin_deg : Q -> Q) : Prop :=
  Proper (Qeq ==> Qeq) cos_deg /\
  Proper (Qeq ==> Qeq) sin_deg /\
  cos_deg 0 == 1 /\ sin_deg 0 == 0 /\
  cos_deg 180 == -(1) /\ sin_deg 180 == 0.

(** All four error magnitudes of an alert are non-zero. *)
Definition positive_errors (a : Alert) : Prop :=
  0 < RA_ERR_PLUS a /\ 0 < RA_ERR_MINUS a /\
  0 < DEC_ERR_PLUS a /\ 0 < DEC_ERR_MINUS a.

(** The entry of [i] in [g] is a sequence that holds [j]. *)
Definition reports (g : graph) (i j : Z) : Prop :=
  exists l, dict_get g i = Some (Some l) /\ In j l.

(** Some edge point of the row [(i, ai)], in the quadrant [q] of the loop,
    lies in the ellipse of the probe. *)
Definition hit (cos_deg sin_deg : Q -> Q) (alerts : catalog) (probe : Alert)
  (q : Q * (Alert -> Q) * (Alert -> Q)) (i : Z) : Prop :=
  exists ai p,
    In (i, ai) alerts /\
    In p (edge_points cos_deg sin_deg (fst (fst q)) (snd (fst q)) (snd q) ai) /\
    Ellipse.is_in_ellipse p (RA probe) (DEC probe)
      (RA_ERR_PLUS probe, - RA_ERR_MINUS probe)
      (DEC_ERR_PLUS probe, - DEC_ERR_MINUS probe) = true.

(** The entry the loop of lines 83-119 stores for one row. *)
Definition raw_entry (cos_deg sin_deg : Q -> Q) (alerts : catalog) (r : Z * Alert)
  : Z * entry :=
  (fst r, touching cos_deg sin_deg alerts (fst r) (snd r)).

End Statements.

(** ** Concrete inputs *)

Module Examples.
Import Multiplets.

(** A rational stand-in for the sine of an angle in degrees (Bhaskara's
    formula on [0, 180], odd continuation beyond), exact on the axes; it
    lets the closed examples run. *)
Definition sin_half_turn (x : Q) : Q :=
  4 * x * (180 - x) / (40500 - x * (180 - x)).

Definition sin_deg_rat (t : Q) : Q :=
  let x := py_mod t 360 in
  if Qle_bool x 180 then sin_half_turn x else - sin_half_turn (x - 180).

Definition cos_deg_rat (t : Q) : Q := sin_deg_rat (t + 90).

Definition pair_graph : graph := [(1, Some [2]); (2, Some [1])]%Z.
Definition pair_graph_swapped : graph := [(2, Some [1]); (1, Some [2])]%Z.
Definition clique3 : graph :=
  [(0, Some [1; 2]); (1, Some [0; 2]); (2, Some [0; 1])]%Z.

(** An alert with errors of one degree on every side. *)
Definition alert_at (ra dec : Q) : Alert := mkAlert ra dec 1 1 1 1.

(** Two alerts on either side of the 360/0 boundary, errors of one degree. *)
Definition wrap_catalog (iA iB : Z) (dec : Q) : catalog :=
  [ (iA, alert_at (719 # 2) dec); (iB, alert_at (1 # 2) dec) ].

(** Two alerts with the same position and the same errors. *)
Definition twin_alert : Alert := mkAlert 10 5 1 1 1 1.
Definition twin_catalog : catalog := [(1%Z, twin_alert); (2%Z, twin_alert)].

Definition unit_circle_err : Q * Q := (-(1), 1).

End Examples.

(** ** Vocabulary of the statements about the aggregation *)

Module AggregationStatements.
Import Weighted.

(** The rows of the catalog under a list of labels, when all are there. *)
Fixpoint rows_of (alerts : catalog) (labels : list Z) : option (list Alert) :=
  match labels with
  | [] => Some []
  | i :: r =>
      match loc alerts i, rows_of alerts r with
      | Ok a, Some l => Some (a :: l)
      | _, _ => None
      end
  end.

Definition sigma_ra (a : Alert) : Q := (RA_ERR_PLUS a + RA_ERR_MINUS a) / 2.
Definition sigma_dec (a : Alert) : Q := (DEC_ERR_PLUS a + DEC_ERR_MINUS a) / 2.

Section Library.
Variable circmean : list Q -> list ext -> ext.
Variable np_sqrt : ext -> ext.

(** The circular mean of the angles [xs] with the weights [1/sigma_i^2],
    reduced modulo 360. *)
Definition weighted_circular_mean (xs sigmas : list Q) : ext :=
  ext_mod (circmean xs (map inv_square sigmas)) 360.

(** [1 / sqrt(sum(1/sigma_i^2))]. *)
Definition pooled_sigma (sigmas : list Q) : ext :=
  ext_div (Fin 1) (np_sqrt (column_sum (map inv_square sigmas))).

(** What the statement about one alert asks of the two library functions,
    at the values of that alert: the circular mean of the single angle [x]
    is [x] up to whole turns, and the square root of the single weight
    [1/s^2] is [1/s]. *)
Definition mean_of_one (x s : Q) : Prop :=
  exists k : Z, ext_eq (circmean [x] [inv_square s]) (Fin (x + 360 * inject_Z k)).

Definition root_of_one (s : Q) : Prop :=
  ext_eq (np_sqrt (column_sum [inv_square s])) (Fin (1 / s)).

(** The value the aggregation stores for a group with rows [group]. *)
Definition group_value (group : list Alert) : erow * erow :=
  get_weighted_coords circmean np_sqrt
    (map position group) (map symmetrized_error group).

(** What one entry of the multiplet dictionary contributes to the output. *)
Definition contribution (alerts : catalog) (kv : Z * entry) : list (Z * (erow * erow)) :=
  match snd kv with
  | Some (m :: ms) =>
      match rows_of alerts (fst kv :: m :: ms) with
      | Some g => [(fst kv, group_value g)]
      | None => []
      end
  | _ => []
  end.

Definition positions_of (l : list (Z * (erow * erow))) : dict erow :=
  map (fun kc => (fst kc, fst (snd kc))) l.
Definition sigmas_of (l : list (Z * (erow * erow))) : dict erow :=
  map (fun kc => (fst kc, snd (snd kc))) l.

(** The entries of a dictionary that can be aggregated: sequences, and the
    rows of every non-empty group are in the catalog. *)
Definition aggregable (md : graph) (alerts : catalog) : Prop :=
  forall k v, In (k, v) md ->
    exists ms, v = Some ms /\
      (ms <> [] -> exists g, rows_of alerts (k :: ms) = Some g).

End Library.

(** The outcome [r] is the position [(x, y)] with the errors [(sx, sy)]. *)
Definition returns (r : result (erow * erow)) (x y sx sy : Q) : Prop :=
  exists c, r = Ok c /\
    ext_eq (fst (fst c)) (Fin x) /\ ext_eq (snd (fst c)) (Fin y) /\
    ext_eq (fst (snd c)) (Fin sx) /\ ext_eq (snd (snd c)) (Fin sy).

End AggregationStatements.

Module AggregationExamples.
Import Weighted.

(** Stand-ins for the two library functions in the closed examples: the
    mean of a single angle, brought into [-180, 180), and the root of a
    quotient of two perfect squares. *)
Definition circmean_one (xs : list Q) (ws : list ext) : ext :=
  match xs, ws with
  | [x], [Fin w] => if Qpos w then Fin (py_mod (x + 180) 360 - 180) else NaN
  | _, _ => NaN
  end.

Definition sqrt_squares (e : ext) : ext :=
  match e with
  | Fin y => Fin (Z.sqrt (Qnum y) # Pos.sqrt (Qden y))
  | PInf => PInf
  | _ => NaN
  end.

Definition south_alert : Alert := mkAlert 10 (-(30)) 1 1 1 1.
Definition south_catalog : catalog := [(1%Z, south_alert)].

(** One threshold, whose multiplets hold one group. *)
Definition threshold_example : dict (unit * graph) :=
  [(5%Z, (tt, [(1%Z, Some [2%Z]); (2%Z, Some [])]))].

End AggregationExamples.


(** ** Vocabulary of the further statements *)

Module MoreStatements.
Import Multiplets Statements Weighted.

(** What the loop over the quadrants knows once the quadrants [done] are
    behind it: no edge point was found so far and the accumulator is still
    [None], or the accumulator holds exactly the labels, other than the one
    of the probe, of the rows with an edge point in the ellipse. *)
Definition touching_spec (cos_deg sin_deg : Q -> Q) (alerts : catalog)
  (idx : Z) (probe : Alert) (done : list (Q * (Alert -> Q) * (Alert -> Q)))
  (acc : entry) : Prop :=
  match acc with
  | None => forall q j, In q done -> ~ hit cos_deg sin_deg alerts probe q j
  | Some l =>
      forall j, In j l <->
        j <> idx /\ exists q, In q done /\ hit cos_deg sin_deg alerts probe q j
  end.

(** Both errors of one axis are zero. *)
Definition flat_axis (a : Alert) : Prop :=
  (RA_ERR_PLUS a == 0 /\ RA_ERR_MINUS a == 0) \/
  (DEC_ERR_PLUS a == 0 /\ DEC_ERR_MINUS a == 0).

(** Every entry is a sequence (no [None]). *)
Definition all_sequences (g : graph) : Prop :=
  forall k v, In (k, v) g -> exists l, v = Some l.

(** Every label held by an entry is a key. *)
Definition closed (g : graph) : Prop :=
  forall k l, In (k, Some l) g -> forall m, In m l -> In m (keys g).

(** An angle as the aggregation returns it: [nan], or a value in [0, 360). *)
Definition in_turn (e : ext) : Prop :=
  e = NaN \/ exists y, e = Fin y /\ 0 <= y /\ y < 360.

(** The entry is a sequence with at least one label. *)
Definition nonempty_group (kv : Z * entry) : bool :=
  match snd kv with
  | Some (_ :: _) => true
  | _ => false
  end.

End MoreStatements.

Module MoreExamples.
Import Multiplets Examples.

(** A catalog whose first alert has no extent in right ascension. *)
Definition flat_catalog : catalog :=
  [(1%Z, mkAlert 10 5 0 0 1 1); (2%Z, twin_alert)].

(** A graph that holds a label that is no key. *)
Definition dangling_graph : graph := [(1%Z, Some [7%Z])].

(** A graph without a mutual pair. *)
Definition chain_graph : graph := [(1, Some [2]); (2, Some [])]%Z.

(** Thresholds whose multiplets hold no group. *)
Definition empty_thresholds : dict (unit * graph) :=
  [(5%Z, (tt, [(1%Z, Some [])])); (6%Z, (tt, []))].

End MoreExamples.

(** * Properties *)

(** ** Dictionaries *)

Module DictFacts.

Lemma mem_In (x : Z) (l : list Z) : mem x l = true <-> In x l.
Proof.
  unfold mem. rewrite existsb_exists. split.
  - intros (y & Hy & E). apply Z.eqb_eq in E. now subst.
  - intros H. exists x. split; [exact H | apply Z.eqb_refl].
Qed.

Lemma mem_false (x : Z) (l : list Z) : mem x l = false <-> ~ In x l.
Proof. rewrite <- mem_In. destruct (mem x l); intuition congruence. Qed.

Lemma mem_permutation (x : Z) (l l' : list Z) :
  Permutation l l' -> mem x l = mem x l'.
Proof.
  intros P. destruct (mem x l') eqn:E.
  - apply mem_In. apply mem_In in E. eapply Permutation_in; [symmetry|]; eassumption.
  - apply mem_false. apply mem_false in E. intros H. apply E.
    eapply Permutation_in; eassumption.
Qed.

Section Dict.
Context {V : Type}.
Implicit Types (d : dict V) (k : Z) (v : V).

Lemma dict_get_In d k v : dict_get d k = Some v -> In (k, v) d.
Proof.
  induction d as [|[k' v'] r IH]; simpl; [discriminate|].
  destruct (Z.eqb_spec k k') as [->|N].
  - intros [= ->]. now left.
  - intros H. right. auto.
Qed.

Lemma dict_get_key d k : In k (keys d) <-> exists v, dict_get d k = Some v.
Proof.
  induction d as [|[k' v'] r IH]; simpl.
  - split; [tauto | intros [v [=]]].
  - destruct (Z.eqb_spec k k') as [->|N].
    + split; [eauto | auto].
    + rewrite <- IH. split; [intros [E|H]; [congruence | exact H] | auto].
Qed.

Lemma dict_get_None d k : ~ In k (keys d) <-> dict_get d k = None.
Proof.
  rewrite dict_get_key. destruct (dict_get d k) as [v|].
  - split; [intros H; exfalso; eauto | discriminate].
  - split; [reflexivity | intros _ [v [=]]].
Qed.

Lemma In_dict_get d k v : NoDup (keys d) -> In (k, v) d -> dict_get d k = Some v.
Proof.
  induction d as [|[k' v'] r IH]; simpl; [tauto|].
  intros ND [E|H].
  - injection E as -> ->. now rewrite Z.eqb_refl.
  - inversion ND as [|? ? Hn ND']; subst.
    destruct (Z.eqb_spec k k') as [->|N].
    + exfalso. apply Hn. change k' with (fst (k', v)). now apply in_map.
    + auto.
Qed.

Lemma dict_get_permutation d d' k :
  NoDup (keys d) -> Permutation d d' -> dict_get d' k = dict_get d k.
Proof.
  intros ND P.
  assert (ND' : NoDup (keys d'))
    by (eapply Permutation_NoDup; [apply Permutation_map, P | exact ND]).
  destruct (dict_get d k) as [v|] eqn:E.
  - apply In_dict_get; [exact ND'|].
    eapply Permutation_in; [exact P|]. now apply dict_get_In.
  - apply dict_get_None. apply dict_get_None in E. intros H. apply E.
    eapply Permutation_in; [symmetry; apply Permutation_map, P | exact H].
Qed.

(** Assigning to a key that is present rewrites its entry where it stands. *)
Lemma dict_set_present d k v :
  NoDup (keys d) -> In k (keys d) ->
  dict_set d k v = map (fun kv => if Z.eqb (fst kv) k then (fst kv, v) else kv) d.
Proof.
  induction d as [|[k' v'] r IH]; simpl; [tauto|].
  intros ND Hin. inversion ND as [|? ? Hn ND']; subst.
  rewrite (Z.eqb_sym k' k).
  destruct (Z.eqb_spec k k') as [->|N].
  - f_equal. symmetry. rewrite <- (map_id r) at 2. apply map_ext_in.
    intros [k2 v2] H2. simpl.
    destruct (Z.eqb_spec k2 k') as [->|]; [|reflexivity].
    exfalso. apply Hn. change k' with (fst (k', v2)). now apply in_map.
  - f_equal. apply IH; [exact ND'|]. destruct Hin; [congruence | assumption].
Qed.

Lemma keys_dict_set_present d k v :
  NoDup (keys d) -> In k (keys d) -> keys (dict_set d k v) = keys d.
Proof.
  intros ND Hin. rewrite dict_set_present by assumption.
  unfold keys. rewrite map_map. apply map_ext. intros [k' v']. simpl.
  now destruct (Z.eqb k' k).
Qed.

End Dict.

End DictFacts.

(** ** The ellipse membership test *)

Module EllipseFacts.
Import Ellipse.

Lemma Qsqr (x : Q) : x ^ 2 == x * x.
Proof. reflexivity. Qed.

Lemma Qsqr_nonneg (x : Q) : 0 <= x ^ 2.
Proof. rewrite Qsqr. nra. Qed.

Lemma Qsqr_pos (x : Q) : ~ x == 0 -> 0 < x ^ 2.
Proof.
  intros H. rewrite Qsqr.
  destruct (Qlt_le_dec 0 x); [nra|].
  destruct (Qlt_le_dec x 0); [nra|].
  exfalso. apply H. lra.
Qed.

Lemma Qsqr_zero (x : Q) : x ^ 2 == 0 <-> x == 0.
Proof.
  split; intros H.
  - destruct (Qeq_dec x 0) as [E|E]; [exact E|].
    apply Qsqr_pos in E. lra.
  - rewrite Qsqr, H. reflexivity.
Qed.

Lemma Qeq_zero_iff (x : Q) : Qeq_zero x = true <-> x == 0.
Proof. apply Qeq_bool_iff. Qed.

Lemma Qpos_iff (x : Q) : Qpos x = true <-> 0 < x.
Proof.
  unfold Qpos. rewrite negb_true_iff, <- not_true_iff_false, Qle_bool_iff.
  split; intros H; lra.
Qed.

(** A square over the square of a zero semi-axis is [inf] or [nan]. *)
Lemma sq_div_zero (x a : Q) :
  a == 0 ->
  ext_div (Fin (x ^ 2)) (Fin (a ^ 2)) = NaN \/ ext_div (Fin (x ^ 2)) (Fin (a ^ 2)) = PInf.
Proof.
  intros Ha. unfold ext_div.
  assert (Hz : Qeq_zero (a ^ 2) = true) by (apply Qeq_zero_iff, Qsqr_zero, Ha).
  rewrite Hz.
  destruct (Qeq_zero (x ^ 2)) eqn:Hx; [now left|].
  right.
  assert (Hp : Qpos (x ^ 2) = true).
  { apply Qpos_iff. pose proof (Qsqr_nonneg x) as Hn.
    destruct (Qeq_dec (x ^ 2) 0) as [E|E].
    - apply Qeq_zero_iff in E. congruence.
    - lra. }
  now rewrite Hp.
Qed.

Lemma sq_div_nonzero (x a : Q) :
  ~ a == 0 -> ext_div (Fin (x ^ 2)) (Fin (a ^ 2)) = Fin (x ^ 2 / a ^ 2).
Proof.
  intros Ha. unfold ext_div.
  destruct (Qeq_zero (a ^ 2)) eqn:Hz; [|reflexivity].
  exfalso. apply Ha, Qsqr_zero, Qeq_zero_iff, Hz.
Qed.

Lemma within_contour_spec (x a y b : Q) :
  within_contour x a y b = true <-> inside_contour x a y b.
Proof.
  unfold within_contour, inside_contour.
  destruct (Qeq_dec a 0) as [Ha|Ha].
  - split; [|tauto].
    destruct (sq_div_zero x a Ha) as [-> | ->];
      destruct (ext_div (Fin (y ^ 2)) (Fin (b ^ 2))); simpl; discriminate.
  - destruct (Qeq_dec b 0) as [Hb|Hb].
    + split; [|tauto].
      rewrite (sq_div_nonzero x a Ha).
      destruct (sq_div_zero y b Hb) as [-> | ->]; simpl; discriminate.
    + rewrite (sq_div_nonzero x a Ha), (sq_div_nonzero y b Hb). simpl.
      rewrite Qle_bool_iff. tauto.
Qed.

Lemma within_contour_zero_l (x a y b : Q) : a == 0 -> within_contour x a y b = false.
Proof.
  intros Ha. apply not_true_iff_false. rewrite within_contour_spec.
  unfold inside_contour. tauto.
Qed.

Lemma within_contour_zero_r (x a y b : Q) : b == 0 -> within_contour x a y b = false.
Proof.
  intros Hb. apply not_true_iff_false. rewrite within_contour_spec.
  unfold inside_contour. tauto.
Qed.

(** The contour keeps each offset within its semi-axis. *)
Lemma inside_contour_box (x a y b : Q) :
  inside_contour x a y b -> x ^ 2 <= a ^ 2 /\ y ^ 2 <= b ^ 2.
Proof.
  intros (Ha & Hb & H).
  pose proof (Qsqr_pos a Ha) as Pa. pose proof (Qsqr_pos b Hb) as Pb.
  pose proof (Qsqr_nonneg x) as Nx. pose proof (Qsqr_nonneg y) as Ny.
  set (u := x ^ 2 / a ^ 2) in *. set (v := y ^ 2 / b ^ 2) in *.
  assert (Eu : x ^ 2 == u * a ^ 2) by (unfold u; field; lra).
  assert (Ev : y ^ 2 == v * b ^ 2) by (unfold v; field; lra).
  assert (0 <= u) by (unfold u; apply Qle_shift_div_l; lra).
  assert (0 <= v) by (unfold v; apply Qle_shift_div_l; lra).
  split; nra.
Qed.

Lemma sq_le_nonneg (x a : Q) : 0 <= x -> 0 <= a -> x ^ 2 <= a ^ 2 -> x <= a.
Proof. rewrite !Qsqr. intros. nra. Qed.

Lemma sq_le_nonpos (x a : Q) : x <= 0 -> a <= 0 -> x ^ 2 <= a ^ 2 -> a <= x.
Proof. rewrite !Qsqr. intros. nra. Qed.


(** Each mask of the source is the sign test of its quadrant together with
    the contour inequality: the bounding-box comparisons add nothing once the
    semi-axes have the right signs. *)
Lemma quadrant_mask_spec (q : quadrant) (t d ra_min ra_max dec_min dec_max : Q) :
  ra_min <= 0 -> 0 <= ra_max -> dec_min <= 0 -> 0 <= dec_max ->
  quadrant_mask q t d ra_min ra_max dec_min dec_max = true <->
  in_quadrant q t d /\
  inside_contour t (fst (semi_axes q ra_min ra_max dec_min dec_max))
                 d (snd (semi_axes q ra_min ra_max dec_min dec_max)).
Proof.
  intros Hra1 Hra2 Hdec1 Hdec2.
  destruct q; simpl; unfold mask1, mask2, mask3, mask4;
    rewrite !andb_true_iff, !Qle_bool_iff, within_contour_spec;
    (split; [tauto|]); intros [[Hs1 Hs2] Hc];
    destruct (inside_contour_box _ _ _ _ Hc) as [Bx By];
    (split; [|exact Hc]);
    repeat match goal with |- _ /\ _ => split end; try assumption;
    solve [ apply sq_le_nonneg; assumption | apply sq_le_nonpos; assumption ].
Qed.

Lemma quadrant_mask_zero (q : quadrant) (t d ra_min ra_max dec_min dec_max : Q) :
  fst (semi_axes q ra_min ra_max dec_min dec_max) == 0 \/
  snd (semi_axes q ra_min ra_max dec_min dec_max) == 0 ->
  quadrant_mask q t d ra_min ra_max dec_min dec_max = false.
Proof.
  intros H.
  destruct q; simpl in *; unfold mask1, mask2, mask3, mask4;
    (destruct H as [H|H];
     [rewrite (within_contour_zero_l _ _ _ _ H) | rewrite (within_contour_zero_r _ _ _ _ H)]);
    apply andb_false_r.
Qed.

Lemma is_in_ellipse_masks (p : point) (ra dec : Q) (ra_err dec_err : Q * Q) :
  is_in_ellipse p ra dec ra_err dec_err =
  existsb (fun q => quadrant_mask q
                      (rel_ra p ra (Qmin (fst ra_err) (snd ra_err)) (Qmax (fst ra_err) (snd ra_err)))
                      (rel_dec p dec)
                      (Qmin (fst ra_err) (snd ra_err)) (Qmax (fst ra_err) (snd ra_err))
                      (Qmin (fst dec_err) (snd dec_err)) (Qmax (fst dec_err) (snd dec_err)))
          [Quad1; Quad2; Quad3; Quad4].
Proof.
  unfold is_in_ellipse. simpl. rewrite orb_false_r, !orb_assoc. reflexivity.
Qed.

(** The characterisation the overlap graph relies on. *)
Lemma is_in_ellipse_spec (p : point) (ra dec : Q) (ra_err dec_err : Q * Q) :
  Qmin (fst ra_err) (snd ra_err) <= 0 -> 0 <= Qmax (fst ra_err) (snd ra_err) ->
  Qmin (fst dec_err) (snd dec_err) <= 0 -> 0 <= Qmax (fst dec_err) (snd dec_err) ->
  is_in_ellipse p ra dec ra_err dec_err = true <->
  exists q,
    in_quadrant q (rel_ra p ra (Qmin (fst ra_err) (snd ra_err)) (Qmax (fst ra_err) (snd ra_err)))
                  (rel_dec p dec) /\
    inside_contour
      (rel_ra p ra (Qmin (fst ra_err) (snd ra_err)) (Qmax (fst ra_err) (snd ra_err)))
      (fst (semi_axes q (Qmin (fst ra_err) (snd ra_err)) (Qmax (fst ra_err) (snd ra_err))
                        (Qmin (fst dec_err) (snd dec_err)) (Qmax (fst dec_err) (snd dec_err))))
      (rel_dec p dec)
      (snd (semi_axes q (Qmin (fst ra_err) (snd ra_err)) (Qmax (fst ra_err) (snd ra_err))
                        (Qmin (fst dec_err) (snd dec_err)) (Qmax (fst dec_err) (snd dec_err)))).
Proof.
  intros H1 H2 H3 H4.
  rewrite is_in_ellipse_masks, existsb_exists.
  split.
  - intros (q & _ & Hq). exists q. now apply quadrant_mask_spec.
  - intros (q & Hq). exists q. split.
    + destruct q; simpl; tauto.
    + now apply quadrant_mask_spec.
Qed.

Lemma on_contour_inside (x a y b : Q) : on_contour x a y b -> inside_contour x a y b.
Proof. intros (Ha & Hb & H). repeat split; try assumption. rewrite H. lra. Qed.

End EllipseFacts.

(** ** The resolution pass *)

Module ResolveFacts.
Import Multiplets DictFacts.

Lemma well_formed_entry (g : graph) (k : Z) :
  well_formed g -> In k (keys g) ->
  dict_get g k = Some (Some (members g k)) /\
  forall m, In m (members g k) -> In m (keys g).
Proof.
  intros [ND Hwf] Hk.
  apply dict_get_key in Hk. destruct Hk as [v Hv].
  destruct (Hwf k v (dict_get_In _ _ _ Hv)) as (l & -> & Hl).
  unfold members. rewrite Hv. auto.
Qed.

Lemma getitem_well_formed (g : graph) (k : Z) :
  well_formed g -> In k (keys g) -> getitem g k = Ok (Some (members g k)).
Proof.
  intros W Hk. unfold getitem.
  now rewrite (proj1 (well_formed_entry g k W Hk)).
Qed.

(** One round of the inner loop appends the decision of the pair, if the
    pair is mutual. *)
Lemma check_double_decision (g : graph) (a b : Z) (acc : list Z) :
  well_formed g -> In a (keys g) -> In b (keys g) ->
  check_double g a acc b =
  Ok (acc ++ if mem a (members g b) then [loser g a b] else []).
Proof.
  intros W Ha Hb. unfold check_double.
  rewrite (getitem_well_formed g b W Hb). simpl.
  destruct (mem a (members g b)); [|now rewrite app_nil_r].
  rewrite (getitem_well_formed g a W Ha). simpl.
  unfold loser, size.
  destruct (length (members g a) <? length (members g b))%nat; [reflexivity|].
  destruct (length (members g b) <? length (members g a))%nat; reflexivity.
Qed.

Lemma inner_loop_decisions (g : graph) (a : Z) (l acc : list Z) :
  well_formed g -> In a (keys g) -> (forall b, In b l -> In b (keys g)) ->
  for_each l (check_double g a) acc =
  Ok (acc ++ flat_map (fun b => if mem a (members g b) then [loser g a b] else []) l).
Proof.
  intros W Ha. revert acc.
  induction l as [|b l IH]; intros acc Hl; simpl.
  - now rewrite app_nil_r.
  - rewrite check_double_decision by auto with datatypes. simpl.
    rewrite IH by auto with datatypes. now rewrite app_assoc.
Qed.

Lemma outer_loop_decisions (g : graph) (ks acc : list Z) :
  well_formed g -> (forall a, In a ks -> In a (keys g)) ->
  for_each ks
    (fun remove_multiplets_for_indices _index =>
       own <- getitem g _index ;;
       n <- len own ;;
       if (0 <? n)%nat then
         members <- iter own ;;
         for_each members (check_double g _index) remove_multiplets_for_indices
       else Ok remove_multiplets_for_indices)
    acc =
  Ok (acc ++ flat_map (fun a =>
                flat_map (fun b => if mem a (members g b) then [loser g a b] else [])
                         (members g a)) ks).
Proof.
  intros W. revert acc.
  induction ks as [|a ks IH]; intros acc Hks; simpl.
  - now rewrite app_nil_r.
  - assert (Ha : In a (keys g)) by auto with datatypes.
    rewrite (getitem_well_formed g a W Ha). simpl.
    destruct (well_formed_entry g a W Ha) as [_ Hm].
    destruct (members g a) as [|b l] eqn:E.
    + simpl. rewrite IH by auto with datatypes. reflexivity.
    + change (0 <? length (b :: l))%nat with true. cbv iota.
      unfold iter, bind at 1.
      rewrite inner_loop_decisions by auto. simpl bind.
      rewrite IH by auto with datatypes. now rewrite app_assoc.
Qed.

(** The first pass of the source computes the decisions of the reference. *)
Lemma collect_removals_decisions (g : graph) :
  well_formed g -> collect_removals g = Ok (decisions g).
Proof.
  intros W. unfold collect_removals.
  rewrite outer_loop_decisions by auto. reflexivity.
Qed.

Lemma decisions_spec (g : graph) (k : Z) :
  In k (decisions g) <->
  exists a b, In a (keys g) /\ mutual g a b /\ k = loser g a b.
Proof.
  unfold decisions, mutual. rewrite in_flat_map. split.
  - intros (a & Ha & H). apply in_flat_map in H. destruct H as (b & Hb & H).
    destruct (mem a (members g b)) eqn:E; [|contradiction].
    apply mem_In in E. destruct H as [<-|[]]. eauto 6.
  - intros (a & b & Ha & [Hb Hab] & ->). exists a. split; [exact Ha|].
    apply in_flat_map. exists b. split; [exact Hb|].
    apply mem_In in Hab. rewrite Hab. now left.
Qed.

Lemma loser_cases (g : graph) (a b : Z) : loser g a b = a \/ loser g a b = b.
Proof.
  unfold loser.
  destruct (size g a <? size g b)%nat; [now left|].
  destruct (size g b <? size g a)%nat; [now right|].
  destruct (Z.max_spec a b) as [[_ ->]|[_ ->]]; auto.
Qed.

Lemma members_key (g : graph) (k m : Z) : In m (members g k) -> In k (keys g).
Proof.
  unfold members. destruct (dict_get g k) as [v|] eqn:E; [|contradiction].
  intros _. apply dict_get_key. eauto.
Qed.

Lemma decisions_keys (g : graph) (k : Z) : In k (decisions g) -> In k (keys g).
Proof.
  intros H. apply decisions_spec in H. destruct H as (a & b & Ha & [Hb Hab] & ->).
  destruct (loser_cases g a b) as [-> | ->]; [exact Ha|].
  eapply members_key; eassumption.
Qed.

Lemma keys_apply_decisions (g : graph) (marked : list Z) :
  keys (apply_decisions g marked) = keys g.
Proof.
  unfold keys, apply_decisions. rewrite map_map. apply map_ext.
  intros [k v]. simpl. now destruct (mem k marked).
Qed.

(** The second pass of the source is the second pass of the reference. *)
Lemma apply_removals_decisions (marked : list Z) (g : graph) :
  NoDup (keys g) -> (forall k, In k marked -> In k (keys g)) ->
  apply_removals g marked = apply_decisions g marked.
Proof.
  unfold apply_removals.
  revert g. induction marked as [|k marked IH]; intros g ND Hm; simpl.
  - unfold apply_decisions. symmetry. rewrite <- (map_id g) at 2.
    apply map_ext. now intros [k v].
  - assert (Hk : In k (keys g)) by auto with datatypes.
    rewrite IH.
    + rewrite dict_set_present by assumption.
      unfold apply_decisions. rewrite map_map. apply map_ext.
      intros [k' v']. simpl. rewrite (Z.eqb_sym k' k).
      destruct (Z.eqb k k'); simpl; [|reflexivity].
      now destruct (mem k' marked).
    + now rewrite keys_dict_set_present.
    + intros k' Hk'. rewrite keys_dict_set_present by assumption.
      auto with datatypes.
Qed.

Lemma dict_get_apply_decisions (g : graph) (marked : list Z) (k : Z) :
  dict_get (apply_decisions g marked) k =
  match dict_get g k with
  | Some v => Some (if mem k marked then Some [] else v)
  | None => None
  end.
Proof.
  induction g as [|[k' v'] r IH]; simpl; [reflexivity|].
  destruct (mem k' marked) eqn:E; simpl;
    destruct (Z.eqb_spec k k') as [->|N]; try exact IH; now rewrite E.
Qed.

(** The source computes the two-pass reference. *)
Lemma resolve_refines (g : graph) :
  well_formed g -> resolve g = Ok (resolve_two_pass g).
Proof.
  intros W. unfold resolve, resolve_two_pass.
  rewrite (collect_removals_decisions g W). simpl.
  rewrite apply_removals_decisions; [reflexivity | apply W | apply decisions_keys].
Qed.

Lemma members_resolve_two_pass (g : graph) (k : Z) :
  members (resolve_two_pass g) k =
  if mem k (decisions g) then [] else members g k.
Proof.
  unfold members at 1. unfold resolve_two_pass.
  rewrite dict_get_apply_decisions. unfold members.
  destruct (dict_get g k) as [v|]; [|now destruct (mem k (decisions g))].
  destruct (mem k (decisions g)); reflexivity.
Qed.

Lemma well_formed_resolve_two_pass (g : graph) :
  well_formed g -> well_formed (resolve_two_pass g).
Proof.
  intros [ND Hwf]. unfold resolve_two_pass. split.
  - now rewrite keys_apply_decisions.
  - intros k v H. rewrite keys_apply_decisions.
    unfold apply_decisions in H. apply in_map_iff in H.
    destruct H as ([k' v'] & E & H). simpl in E.
    destruct (mem k' (decisions g)).
    + injection E as <- <-. exists []. split; [reflexivity | intros m []].
    + injection E as <- <-. eauto.
Qed.

Lemma loser_sym (g : graph) (a b : Z) : loser g a b = loser g b a.
Proof.
  unfold loser.
  destruct (Nat.ltb_spec (size g a) (size g b));
    destruct (Nat.ltb_spec (size g b) (size g a)); try reflexivity; lia.
Qed.

Lemma mutual_sym (g : graph) (a b : Z) : mutual g a b -> mutual g b a.
Proof. unfold mutual. tauto. Qed.

Lemma mutual_decision (g : graph) (a b : Z) :
  mutual g a b -> In (loser g a b) (decisions g).
Proof.
  intros M. apply decisions_spec. exists a, b. split; [|auto].
  destruct M as [Hb _]. eapply members_key; eassumption.
Qed.

(** An index is marked exactly when it loses one of its own mutual pairs. *)
Lemma marked_iff_loses (g : graph) (k : Z) :
  In k (decisions g) <-> exists c, mutual g k c /\ loser g k c = k.
Proof.
  split.
  - intros H. apply decisions_spec in H. destruct H as (a & b & Ha & M & E).
    destruct (loser_cases g a b) as [L|L].
    + exists b. split; congruence.
    + exists a. split; [apply mutual_sym; congruence | rewrite loser_sym; congruence].
  - intros (c & M & E). rewrite <- E. now apply mutual_decision.
Qed.

(** A resolved graph has no mutual pair left. *)
Lemma decisions_resolved (g : graph) : decisions (resolve_two_pass g) = [].
Proof.
  destruct (decisions (resolve_two_pass g)) as [|k l] eqn:E; [reflexivity|].
  exfalso.
  assert (H : In k (decisions (resolve_two_pass g))) by (rewrite E; now left).
  apply decisions_spec in H. destruct H as (a & b & _ & [Hb Ha] & _).
  rewrite members_resolve_two_pass in Hb, Ha.
  destruct (mem a (decisions g)) eqn:Ea; [contradiction|].
  destruct (mem b (decisions g)) eqn:Eb; [contradiction|].
  apply mem_false in Ea. apply mem_false in Eb.
  assert (M : mutual g a b) by (split; assumption).
  pose proof (mutual_decision g a b M) as L.
  destruct (loser_cases g a b) as [R|R]; rewrite R in L; contradiction.
Qed.

Lemma apply_decisions_nil (g : graph) : apply_decisions g [] = g.
Proof.
  unfold apply_decisions. rewrite <- (map_id g) at 2.
  apply map_ext. now intros [k v].
Qed.

End ResolveFacts.

(** ** The overlap graph *)

Module BuilderFacts.
Import Multiplets DictFacts Ellipse EllipseFacts Statements.

Lemma In_drop_duplicates_from (seen l : list Z) (x : Z) :
  In x (drop_duplicates_from seen l) <-> In x l /\ ~ In x seen.
Proof.
  revert seen. induction l as [|y r IH]; intros seen; simpl; [tauto|].
  destruct (mem y seen) eqn:E.
  - rewrite IH. apply mem_In in E.
    split; [tauto|]. intros [[->|H] Hn]; [contradiction | tauto].
  - apply mem_false in E. simpl. rewrite IH. simpl.
    destruct (Z.eq_dec y x) as [->|N]; tauto.
Qed.

Lemma In_drop_duplicates (l : list Z) (x : Z) : In x (drop_duplicates l) <-> In x l.
Proof. unfold drop_duplicates. rewrite In_drop_duplicates_from. simpl. tauto. Qed.

Lemma In_drop (label x : Z) (l : list Z) : In x (drop label l) <-> In x l /\ x <> label.
Proof.
  unfold drop. rewrite filter_In, negb_true_iff.
  destruct (Z.eqb_spec x label); intuition congruence.
Qed.

Lemma combine_map_r {A B : Type} (f : A -> B) (l : list A) :
  combine l (map f l) = map (fun x => (x, f x)) l.
Proof. induction l; simpl; congruence. Qed.

Lemma dict_set_absent {V : Type} (d : dict V) (k : Z) (v : V) :
  ~ In k (keys d) -> dict_set d k v = d ++ [(k, v)].
Proof.
  induction d as [|[k' v'] r IH]; simpl; [reflexivity|].
  intros H. destruct (Z.eqb_spec k k') as [->|N]; [tauto|].
  f_equal. apply IH. tauto.
Qed.

Lemma loc_In (alerts : catalog) (i : Z) (a : Alert) :
  NoDup (index alerts) -> In (i, a) alerts -> loc alerts i = Ok a.
Proof.
  induction alerts as [|[j b] r IH]; simpl; [tauto|].
  intros ND [E|H].
  - injection E as -> ->. now rewrite Z.eqb_refl.
  - inversion ND as [|? ? Hn ND']; subst.
    destruct (Z.eqb_spec i j) as [->|N]; [|auto].
    exfalso. apply Hn. change j with (fst (j, a)). now apply in_map.
Qed.

Section WithTrig.
Variables cos_deg sin_deg : Q -> Q.

Lemma masked_index_hit (alerts : catalog) (probe : Alert)
  (theta : Q) (er ed : Alert -> Q) (i : Z) :
  In i (masked_index alerts (in_ellipse_mask cos_deg sin_deg alerts probe theta er ed))
  <-> hit cos_deg sin_deg alerts probe (theta, er, ed) i.
Proof.
  unfold masked_index, in_ellipse_mask, hit. rewrite combine_map_r, in_flat_map.
  cbn [fst snd]. split.
  - intros (rm & Hrm & Hi). apply in_map_iff in Hrm.
    destruct Hrm as ([j aj] & <- & Hj). cbn [fst snd] in Hi.
    apply in_map_iff in Hi. destruct Hi as (c & <- & Hc).
    apply filter_In in Hc. destruct Hc as [Hc ->].
    apply in_map_iff in Hc. destruct Hc as (p & Hp & Hin).
    exists aj, p. auto.
  - intros (ai & p & Hi & Hp & Hin).
    eexists. split; [apply in_map_iff; exists (i, ai); split; [reflexivity | exact Hi]|].
    cbn [fst snd]. apply in_map_iff. exists true. split; [reflexivity|].
    apply filter_In. split; [|reflexivity].
    apply in_map_iff. exists p. auto.
Qed.

Lemma any_hit (alerts : catalog) (probe : Alert)
  (theta : Q) (er ed : Alert -> Q) (i : Z) :
  hit cos_deg sin_deg alerts probe (theta, er, ed) i ->
  any (in_ellipse_mask cos_deg sin_deg alerts probe theta er ed) = true.
Proof.
  intros (ai & p & Hi & Hp & Hin). unfold any, in_ellipse_mask.
  apply existsb_exists. eexists. split.
  - apply in_map_iff. exists (i, ai). split; [reflexivity | exact Hi].
  - apply existsb_exists. exists true. split; [|reflexivity].
    apply in_map_iff. exists p. auto.
Qed.

Lemma quadrant_step_hit (alerts : catalog) (idx : Z) (probe : Alert)
  (acc : entry) (q : Q * (Alert -> Q) * (Alert -> Q)) (i : Z) :
  i <> idx -> hit cos_deg sin_deg alerts probe q i ->
  exists l, quadrant_step cos_deg sin_deg alerts idx probe acc q = Some l /\ In i l.
Proof.
  intros N H. destruct q as [[theta er] ed]. unfold quadrant_step.
  rewrite (any_hit _ _ _ _ _ _ H).
  apply masked_index_hit in H.
  set (found := match acc with
                | Some l => drop_duplicates (l ++ masked_index alerts _)
                | None => drop_duplicates (masked_index alerts _)
                end).
  assert (F : In i found).
  { unfold found. destruct acc; apply In_drop_duplicates; auto with datatypes. }
  destruct (mem idx found); eexists; (split; [reflexivity|]); [|exact F].
  apply In_drop. auto.
Qed.

Lemma quadrant_step_keeps (alerts : catalog) (idx : Z) (probe : Alert)
  (l : list Z) (q : Q * (Alert -> Q) * (Alert -> Q)) (i : Z) :
  i <> idx -> In i l ->
  exists l', quadrant_step cos_deg sin_deg alerts idx probe (Some l) q = Some l' /\ In i l'.
Proof.
  intros N H. destruct q as [[theta er] ed]. unfold quadrant_step.
  destruct (any _); [|eauto].
  set (found := drop_duplicates _).
  assert (F : In i found) by (apply In_drop_duplicates; auto with datatypes).
  destruct (mem idx found); eexists; (split; [reflexivity|]); [|exact F].
  apply In_drop. auto.
Qed.

Lemma fold_keeps (alerts : catalog) (idx : Z) (probe : Alert)
  (qs : list (Q * (Alert -> Q) * (Alert -> Q))) (l : list Z) (i : Z) :
  i <> idx -> In i l ->
  exists l', fold_left (quadrant_step cos_deg sin_deg alerts idx probe) qs (Some l) = Some l'
             /\ In i l'.
Proof.
  intros N. revert l. induction qs as [|q qs IH]; intros l H; simpl; [eauto|].
  destruct (quadrant_step_keeps alerts idx probe l q i N H) as (l1 & -> & H1). auto.
Qed.

Lemma fold_hit (alerts : catalog) (idx : Z) (probe : Alert)
  (qs : list (Q * (Alert -> Q) * (Alert -> Q))) (acc : entry)
  (q : Q * (Alert -> Q) * (Alert -> Q)) (i : Z) :
  i <> idx -> In q qs -> hit cos_deg sin_deg alerts probe q i ->
  exists l, fold_left (quadrant_step cos_deg sin_deg alerts idx probe) qs acc = Some l
            /\ In i l.
Proof.
  intros N. revert acc. induction qs as [|q' qs IH]; intros acc Hq H; simpl; [destruct Hq|].
  destruct Hq as [->|Hq]; [|auto].
  destruct (quadrant_step_hit alerts idx probe acc q i N H) as (l1 & -> & H1).
  now apply fold_keeps.
Qed.

(** An alert whose edge reaches into the ellipse of the probe is in the
    touching set of the probe. *)
Lemma touching_intro (alerts : catalog) (idx : Z) (probe : Alert)
  (q : Q * (Alert -> Q) * (Alert -> Q)) (i : Z) :
  i <> idx -> In q quadrants -> hit cos_deg sin_deg alerts probe q i ->
  exists l, touching cos_deg sin_deg alerts idx probe = Some l /\ In i l.
Proof. intros. unfold touching. eapply fold_hit; eassumption. Qed.

Lemma build_loop (alerts pre suf : catalog) :
  alerts = pre ++ suf -> NoDup (index alerts) ->
  for_each (index suf)
    (fun multiplets tmp_index =>
       tmp_alerts <- loc alerts tmp_index ;;
       Ok (dict_set multiplets tmp_index
             (touching cos_deg sin_deg alerts tmp_index tmp_alerts)))
    (map (raw_entry cos_deg sin_deg alerts) pre)
  = Ok (map (raw_entry cos_deg sin_deg alerts) alerts).
Proof.
  revert pre. induction suf as [|[i a] suf IH]; intros pre E ND; simpl.
  - subst. now rewrite app_nil_r.
  - rewrite (loc_In alerts i a ND) by (subst; auto with datatypes). simpl.
    rewrite dict_set_absent.
    + change (map (raw_entry cos_deg sin_deg alerts) pre ++ [(i, touching cos_deg sin_deg alerts i a)])
        with (map (raw_entry cos_deg sin_deg alerts) pre ++ map (raw_entry cos_deg sin_deg alerts) [(i, a)]).
      rewrite <- map_app. apply IH; [|exact ND].
      subst. now rewrite <- app_assoc.
    + unfold keys. rewrite map_map. simpl.
      subst. unfold index in ND. rewrite map_app in ND. simpl in ND.
      apply NoDup_remove_2 in ND. intros H. apply ND.
      apply in_or_app. now left.
Qed.

(** The first half of [get_multiplet_index_dictionary] on a catalog with
    unique labels: one entry per row, in row order. *)
Lemma build_multiplets_rows (alerts : catalog) :
  NoDup (index alerts) ->
  build_multiplets cos_deg sin_deg alerts = Ok (map (raw_entry cos_deg sin_deg alerts) alerts).
Proof. intros ND. unfold build_multiplets. now apply (build_loop alerts []). Qed.

Lemma raw_entry_lookup (alerts : catalog) (i : Z) (a : Alert) :
  NoDup (index alerts) -> In (i, a) alerts ->
  dict_get (map (raw_entry cos_deg sin_deg alerts) alerts) i
  = Some (touching cos_deg sin_deg alerts i a).
Proof.
  intros ND H. apply In_dict_get.
  - unfold keys. rewrite map_map. exact ND.
  - apply in_map_iff. exists (i, a). auto.
Qed.

(** Putting the pieces together. *)
Lemma build_multiplets_reports (alerts : catalog) (i j : Z) (a : Alert)
  (q : Q * (Alert -> Q) * (Alert -> Q)) :
  NoDup (index alerts) -> In (i, a) alerts -> j <> i ->
  In q quadrants -> hit cos_deg sin_deg alerts a q j ->
  reports (map (raw_entry cos_deg sin_deg alerts) alerts) i j.
Proof.
  intros ND Hi N Hq H. unfold reports.
  rewrite (raw_entry_lookup alerts i a ND Hi).
  destruct (touching_intro alerts i a q j N Hq H) as (l & -> & Hl). eauto.
Qed.

End WithTrig.

End BuilderFacts.

(** ** The modulo of the wraparound corrections *)

Module ModFacts.

Lemma Qfloor_unique (x : Q) (n : Z) :
  inject_Z n <= x -> x < inject_Z (n + 1) -> Qfloor x = n.
Proof.
  intros H1 H2.
  pose proof (Qfloor_le x) as F1. pose proof (Qlt_floor x) as F2.
  assert (A : (n < Qfloor x + 1)%Z) by (rewrite Zlt_Qlt; lra).
  assert (B : (Qfloor x < n + 1)%Z) by (rewrite Zlt_Qlt; lra).
  lia.
Qed.

#[export] Instance py_mod_proper : Proper (Qeq ==> Qeq ==> Qeq) py_mod.
Proof.
  intros x x' Hx m m' Hm. unfold py_mod.
  assert (E : Qfloor (x / m) = Qfloor (x' / m')) by (apply Qfloor_comp; now rewrite Hx, Hm).
  now rewrite E, Hx, Hm.
Qed.

Lemma floor_bounds (x : Q) :
  360 * inject_Z (Qfloor (x / 360)) <= x /\
  x < 360 * inject_Z (Qfloor (x / 360)) + 360.
Proof.
  pose proof (Qfloor_le (x / 360)) as F1. pose proof (Qlt_floor (x / 360)) as F2.
  rewrite inject_Z_plus in F2. change (inject_Z 1) with 1 in F2.
  assert (E : x == 360 * (x / 360)) by field.
  generalize dependent (inject_Z (Qfloor (x / 360))). intros f F1 F2.
  generalize dependent (x / 360). intros a E F1 F2.
  split; lra.
Qed.

Lemma floor_unique (x : Q) (n : Z) :
  360 * inject_Z n <= x -> x < 360 * inject_Z n + 360 -> Qfloor (x / 360) = n.
Proof.
  intros H1 H2. apply Qfloor_unique.
  - apply Qle_shift_div_l; lra.
  - rewrite inject_Z_plus. change (inject_Z 1) with 1.
    apply Qlt_shift_div_r; lra.
Qed.

Lemma py_mod_range (x : Q) : 0 <= py_mod x 360 /\ py_mod x 360 < 360.
Proof. unfold py_mod. destruct (floor_bounds x). split; lra. Qed.

Lemma py_mod_le (x : Q) : 0 <= x -> py_mod x 360 <= x.
Proof.
  intros H. unfold py_mod.
  assert (F : (0 <= Qfloor (x / 360))%Z).
  { change 0%Z with (Qfloor 0). apply Qfloor_resp_le.
    apply Qle_shift_div_l; lra. }
  rewrite Zle_Qle in F. change (inject_Z 0) with 0 in F.
  generalize dependent (inject_Z (Qfloor (x / 360))). intros f F. lra.
Qed.

Lemma py_mod_shift (x : Q) (k : Z) :
  py_mod (x + 360 * inject_Z k) 360 == py_mod x 360.
Proof.
  unfold py_mod.
  assert (E : Qfloor ((x + 360 * inject_Z k) / 360) = (Qfloor (x / 360) + k)%Z).
  { destruct (floor_bounds x). apply floor_unique; rewrite inject_Z_plus; lra. }
  rewrite E, inject_Z_plus. ring.
Qed.

(** The second correction after the first one sees the same residue. *)
Lemma py_mod_neg_mod (x : Q) : py_mod (- py_mod x 360) 360 == py_mod (- x) 360.
Proof.
  rewrite <- (py_mod_shift (- x) (Qfloor (x / 360))).
  apply py_mod_proper; [|reflexivity]. unfold py_mod. ring.
Qed.

End ModFacts.

(** ** Alerts that touch *)

Module TouchFacts.
Import Multiplets Ellipse EllipseFacts ModFacts BuilderFacts Statements Examples.

Lemma inside_contour_axis (x a y b : Q) :
  ~ a == 0 -> ~ b == 0 -> y == 0 -> x ^ 2 <= a ^ 2 -> inside_contour x a y b.
Proof.
  intros Ha Hb Hy Hx. repeat split; try assumption.
  pose proof (Qsqr_pos a Ha) as Pa.
  assert (E : y ^ 2 / b ^ 2 == 0) by (rewrite Hy; field; exact Hb).
  rewrite E, Qplus_0_r. apply Qle_shift_div_r; lra.
Qed.

Lemma error_bounds (e_plus e_minus : Q) :
  0 <= e_plus -> 0 <= e_minus ->
  lower (e_plus, - e_minus) == - e_minus /\ upper (e_plus, - e_minus) == e_plus.
Proof.
  intros H1 H2. unfold lower, upper. cbn [fst snd].
  split; [apply Q.min_r | apply Q.max_l]; lra.
Qed.

(** A point at the declination of the probe whose corrected offset in right
    ascension stays within the two errors lies in the ellipse. *)
Lemma probe_contains_axis_point (probe : Alert) (p : point) (x : Q) :
  positive_errors probe ->
  rel_ra p (RA probe) (lower (RA_ERR_PLUS probe, - RA_ERR_MINUS probe))
                      (upper (RA_ERR_PLUS probe, - RA_ERR_MINUS probe)) == x ->
  rel_dec p (DEC probe) == 0 ->
  - RA_ERR_MINUS probe <= x -> x <= RA_ERR_PLUS probe ->
  is_in_ellipse p (RA probe) (DEC probe)
    (RA_ERR_PLUS probe, - RA_ERR_MINUS probe)
    (DEC_ERR_PLUS probe, - DEC_ERR_MINUS probe) = true.
Proof.
  intros (P1 & P2 & P3 & P4) Hx Hy Lo Hi.
  destruct (error_bounds (RA_ERR_PLUS probe) (RA_ERR_MINUS probe)) as [Rl Ru]; [lra | lra |].
  destruct (error_bounds (DEC_ERR_PLUS probe) (DEC_ERR_MINUS probe)) as [Dl Du]; [lra | lra |].
  unfold lower, upper in *. cbn [fst snd] in *.
  apply is_in_ellipse_spec; cbn [fst snd]; try lra.
  destruct (Qlt_le_dec x 0) as [Neg|Pos].
  - exists Quad3. cbn [in_quadrant semi_axes fst snd]. split; [lra|].
    apply inside_contour_axis; try lra.
    rewrite Hx, Rl, !Qsqr. nra.
  - exists Quad1. cbn [in_quadrant semi_axes fst snd]. split; [lra|].
    apply inside_contour_axis; try lra.
    rewrite Hx, Ru, !Qsqr. nra.
Qed.

Lemma linspace_last (start stop : Q) (num : nat) : In stop (linspace start stop num).
Proof. unfold linspace. apply in_or_app. right. now left. Qed.

Lemma linspace_first (start stop : Q) :
  exists t, t == start /\ In t (linspace start stop 20).
Proof.
  exists (inject_Z (Z.of_nat 0) * ((stop - start) / inject_Z (Z.of_nat (20 - 1))) + start).
  split.
  - change (inject_Z (Z.of_nat 0)) with 0. ring.
  - unfold linspace. apply in_or_app. left.
    apply in_map_iff. exists 0%nat. split; [reflexivity|].
    apply in_seq. simpl. lia.
Qed.


Section Touch.
Variables cos_deg sin_deg : Q -> Q.
Hypothesis trig : exact_on_axes cos_deg sin_deg.

Lemma cos_deg_0 (t : Q) : t == 0 -> cos_deg t == 1.
Proof. destruct trig as (Pc & _ & H & _). intros ->. exact H. Qed.

Lemma sin_deg_0 (t : Q) : t == 0 -> sin_deg t == 0.
Proof. destruct trig as (_ & Ps & _ & H & _). intros ->. exact H. Qed.

Lemma cos_deg_180 (t : Q) : t == 180 -> cos_deg t == -(1).
Proof. destruct trig as (Pc & _ & _ & _ & H & _). intros ->. exact H. Qed.

Lemma sin_deg_180 (t : Q) : t == 180 -> sin_deg t == 0.
Proof. destruct trig as (_ & Ps & _ & _ & _ & H). intros ->. exact H. Qed.

(** The edge point of an alert at angle 0, and the one at angle 180. *)
Lemma edge_point_0 (a : Alert) :
  exists p, In p (edge_points cos_deg sin_deg 0 RA_ERR_PLUS DEC_ERR_PLUS a) /\
            pRA p == RA a + RA_ERR_PLUS a /\ pDEC p == DEC a.
Proof.
  destruct (linspace_first 0 (0 + 90)) as (t & Ht & Hin).
  eexists. split; [apply in_map_iff; exists t; split; [reflexivity | exact Hin]|].
  cbn [pRA pDEC]. rewrite (cos_deg_0 t Ht), (sin_deg_0 t Ht). split; ring.
Qed.

Lemma edge_point_180 (a : Alert) :
  exists p, In p (edge_points cos_deg sin_deg 90 RA_ERR_MINUS DEC_ERR_PLUS a) /\
            pRA p == RA a - RA_ERR_MINUS a /\ pDEC p == DEC a.
Proof.
  eexists. split;
    [apply in_map_iff; exists (90 + 90); split; [reflexivity | apply linspace_last]|].
  cbn [pRA pDEC].
  rewrite (cos_deg_180 (90 + 90)), (sin_deg_180 (90 + 90)) by reflexivity.
  split; ring.
Qed.

(** The offsets of a point lying at distance [RA_ERR_PLUS] east, resp.
    [RA_ERR_MINUS] west, of the centre of the probe, after the corrections
    of lines 30-35. *)
Lemma rel_ra_east (probe : Alert) (p : point) :
  positive_errors probe ->
  pRA p == RA probe + RA_ERR_PLUS probe ->
  Qle_bool (RA probe + lower (RA_ERR_PLUS probe, - RA_ERR_MINUS probe)) 0 = false ->
  exists x,
    rel_ra p (RA probe) (lower (RA_ERR_PLUS probe, - RA_ERR_MINUS probe))
                        (upper (RA_ERR_PLUS probe, - RA_ERR_MINUS probe)) == x /\
    0 <= x /\ x <= RA_ERR_PLUS probe.
Proof.
  intros (P1 & P2 & _) Hp Hc. unfold rel_ra. rewrite Hc.
  assert (T : pRA p - RA probe == RA_ERR_PLUS probe) by (rewrite Hp; ring).
  destruct (Qle_bool 360 _).
  - exists (py_mod (RA_ERR_PLUS probe) 360). split; [now rewrite T|].
    split; [apply py_mod_range | apply py_mod_le; lra].
  - exists (RA_ERR_PLUS probe). split; [exact T | lra].
Qed.

Lemma rel_ra_west (probe : Alert) (p : point) :
  positive_errors probe ->
  pRA p == RA probe - RA_ERR_MINUS probe ->
  Qle_bool (RA probe + lower (RA_ERR_PLUS probe, - RA_ERR_MINUS probe)) 0 = true ->
  exists x,
    rel_ra p (RA probe) (lower (RA_ERR_PLUS probe, - RA_ERR_MINUS probe))
                        (upper (RA_ERR_PLUS probe, - RA_ERR_MINUS probe)) == x /\
    - RA_ERR_MINUS probe <= x /\ x <= 0.
Proof.
  intros (P1 & P2 & _) Hp Hc. unfold rel_ra. rewrite Hc.
  assert (T : - (pRA p - RA probe) == RA_ERR_MINUS probe) by (rewrite Hp; ring).
  exists (- py_mod (RA_ERR_MINUS probe) 360).
  pose proof (py_mod_range (RA_ERR_MINUS probe)) as [R1 _].
  pose proof (py_mod_le (RA_ERR_MINUS probe)) as R2.
  split; [|lra].
  destruct (Qle_bool 360 _).
  - now rewrite py_mod_neg_mod, T.
  - now rewrite T.
Qed.

(** An alert reaches into the ellipse of every alert that has its position
    and its errors. *)
Lemma twin_hit (alerts : catalog) (j : Z) (a : Alert) :
  positive_errors a -> In (j, a) alerts ->
  exists q, In q quadrants /\ hit cos_deg sin_deg alerts a q j.
Proof.
  intros P Hj.
  destruct (Qle_bool (RA a + lower (RA_ERR_PLUS a, - RA_ERR_MINUS a)) 0) eqn:Hc.
  - exists (90, RA_ERR_MINUS, DEC_ERR_PLUS). split; [simpl; auto|].
    destruct (edge_point_180 a) as (p & Hin & Hra & Hdec).
    destruct (rel_ra_west a p P Hra Hc) as (x & Hx & B1 & B2).
    exists a, p. repeat split; try assumption.
    apply (probe_contains_axis_point a p x P Hx); [| exact B1 |].
    + unfold rel_dec. rewrite Hdec. ring.
    + destruct P as (P1 & _). lra.
  - exists (0, RA_ERR_PLUS, DEC_ERR_PLUS). split; [simpl; auto|].
    destruct (edge_point_0 a) as (p & Hin & Hra & Hdec).
    destruct (rel_ra_east a p P Hra Hc) as (x & Hx & B1 & B2).
    exists a, p. repeat split; try assumption.
    apply (probe_contains_axis_point a p x P Hx); [| | exact B2].
    + unfold rel_dec. rewrite Hdec. ring.
    + destruct P as (_ & P2 & _). lra.
Qed.

End Touch.

End TouchFacts.

Module WrapFacts.
Import Multiplets Ellipse EllipseFacts ModFacts BuilderFacts Statements Examples TouchFacts.

#[export] Instance sin_half_turn_proper : Proper (Qeq ==> Qeq) sin_half_turn.
Proof. intros x y H. unfold sin_half_turn. now rewrite H. Qed.

#[export] Instance sin_deg_rat_proper : Proper (Qeq ==> Qeq) sin_deg_rat.
Proof.
  intros x y H. unfold sin_deg_rat.
  assert (E : py_mod x 360 == py_mod y 360) by now rewrite H.
  rewrite (Qleb_comp _ _ E 180 180 (Qeq_refl _)).
  destruct (Qle_bool (py_mod y 360) 180); now rewrite E.
Qed.

#[export] Instance cos_deg_rat_proper : Proper (Qeq ==> Qeq) cos_deg_rat.
Proof. intros x y H. unfold cos_deg_rat. now rewrite H. Qed.

Lemma exact_on_axes_rat : exact_on_axes cos_deg_rat sin_deg_rat.
Proof.
  split; [exact cos_deg_rat_proper|]. split; [exact sin_deg_rat_proper|].
  repeat split; reflexivity.
Qed.

Section Wrap.
Variables cos_deg sin_deg : Q -> Q.
Hypothesis trig : exact_on_axes cos_deg sin_deg.
Variables (iA iB : Z) (dec : Q).

Lemma positive_errors_unit (ra : Q) : positive_errors (alert_at ra dec).
Proof. unfold positive_errors. cbn. repeat split; reflexivity. Qed.

(** The west end of the ellipse at 0.5 lies in the ellipse at 359.5. *)
Lemma wrap_hit_A :
  hit cos_deg sin_deg (wrap_catalog iA iB dec) (alert_at (719 # 2) dec) (90, RA_ERR_MINUS, DEC_ERR_PLUS) iB.
Proof.
  destruct (edge_point_180 cos_deg sin_deg trig (alert_at (1 # 2) dec)) as (p & Hin & Hra & Hdec).
  exists (alert_at (1 # 2) dec), p. split; [simpl; auto|]. split; [exact Hin|].
  cbn [RA DEC RA_ERR_MINUS alert_at] in Hra, Hdec.
  apply (probe_contains_axis_point (alert_at (719 # 2) dec) p 0 (positive_errors_unit _)).
  - unfold rel_ra. cbn [RA RA_ERR_PLUS RA_ERR_MINUS alert_at].
    replace (Qle_bool 360 ((719 # 2) + upper (1, - (1)))) with true by reflexivity.
    replace (Qle_bool ((719 # 2) + lower (1, - (1))) 0) with false by reflexivity.
    assert (T : pRA p - (719 # 2) == -(360)) by (rewrite Hra; reflexivity).
    rewrite T. reflexivity.
  - unfold rel_dec. cbn [DEC alert_at]. rewrite Hdec. ring.
  - cbn. discriminate.
  - cbn. discriminate.
Qed.

(** The east end of the ellipse at 359.5 lies in the ellipse at 0.5. *)
Lemma wrap_hit_B :
  hit cos_deg sin_deg (wrap_catalog iA iB dec) (alert_at (1 # 2) dec) (0, RA_ERR_PLUS, DEC_ERR_PLUS) iA.
Proof.
  destruct (edge_point_0 cos_deg sin_deg trig (alert_at (719 # 2) dec)) as (p & Hin & Hra & Hdec).
  exists (alert_at (719 # 2) dec), p. split; [simpl; auto|]. split; [exact Hin|].
  cbn [RA DEC RA_ERR_PLUS alert_at] in Hra, Hdec.
  apply (probe_contains_axis_point (alert_at (1 # 2) dec) p 0 (positive_errors_unit _)).
  - unfold rel_ra. cbn [RA RA_ERR_PLUS RA_ERR_MINUS alert_at].
    replace (Qle_bool 360 ((1 # 2) + upper (1, - (1)))) with false by reflexivity.
    replace (Qle_bool ((1 # 2) + lower (1, - (1))) 0) with true by reflexivity.
    assert (T : - (pRA p - (1 # 2)) == -(360)) by (rewrite Hra; reflexivity).
    rewrite T. reflexivity.
  - unfold rel_dec. cbn [DEC alert_at]. rewrite Hdec. ring.
  - cbn. discriminate.
  - cbn. discriminate.
Qed.

End Wrap.

End WrapFacts.

Module ReturnedMapping.
Import Multiplets Ellipse EllipseFacts ModFacts DictFacts BuilderFacts Statements Examples.
Import TouchFacts WrapFacts ResolveFacts.

Lemma reports_members (g : graph) (i j : Z) : reports g i j <-> In j (members g i).
Proof.
  unfold reports, members. split.
  - intros (l & -> & H). exact H.
  - destruct (dict_get g i) as [[l|]|]; try contradiction. eauto.
Qed.

(** After the resolution no two entries hold each other. *)
Lemma resolved_one_direction (g r : graph) (a b : Z) :
  well_formed g -> resolve g = Ok r -> ~ (reports r a b /\ reports r b a).
Proof.
  intros W E [H1 H2]. rewrite (resolve_refines g W) in E. injection E as <-.
  apply reports_members in H1, H2.
  assert (M : mutual (resolve_two_pass g) a b) by (split; assumption).
  pose proof (mutual_decision _ a b M) as D.
  rewrite decisions_resolved in D. exact D.
Qed.

Section Raw.
Variables cos_deg sin_deg : Q -> Q.

Lemma quadrant_step_labels (alerts : catalog) (idx : Z) (probe : Alert)
  (acc : entry) (q : Q * (Alert -> Q) * (Alert -> Q)) (l' : list Z) :
  (forall l, acc = Some l -> forall x, In x l -> In x (index alerts)) ->
  quadrant_step cos_deg sin_deg alerts idx probe acc q = Some l' ->
  forall x, In x l' -> In x (index alerts).
Proof.
  intros Hacc. destruct q as [[theta er] ed]. unfold quadrant_step.
  destruct (any _); [|intros E; exact (Hacc l' E)].
  set (found := match acc with
                | Some l => drop_duplicates (l ++ masked_index alerts _)
                | None => drop_duplicates (masked_index alerts _)
                end).
  assert (F : forall x, In x found -> In x (index alerts)).
  { intros x Hx. unfold found in Hx.
    assert (Hm : forall y, In y (masked_index alerts
                   (in_ellipse_mask cos_deg sin_deg alerts probe theta er ed)) ->
                 In y (index alerts)).
    { intros y Hy. apply masked_index_hit in Hy. destruct Hy as (ai & p & Hi & _).
      change y with (fst (y, ai)). now apply in_map. }
    destruct acc as [l|]; apply (proj1 (In_drop_duplicates _ _)) in Hx; [|auto].
    apply in_app_or in Hx. destruct Hx; [eapply Hacc; eauto | auto]. }
  destruct (mem idx found); intros [= <-] x Hx; [|auto].
  apply (proj1 (In_drop _ _ _)) in Hx. apply F, Hx.
Qed.

Lemma fold_labels (alerts : catalog) (idx : Z) (probe : Alert)
  (qs : list (Q * (Alert -> Q) * (Alert -> Q))) (acc : entry) (l' : list Z) :
  (forall l, acc = Some l -> forall x, In x l -> In x (index alerts)) ->
  fold_left (quadrant_step cos_deg sin_deg alerts idx probe) qs acc = Some l' ->
  forall x, In x l' -> In x (index alerts).
Proof.
  revert acc. induction qs as [|q qs IH]; intros acc Hacc; simpl.
  - intros E. exact (Hacc l' E).
  - apply IH. intros l E. now apply (quadrant_step_labels alerts idx probe acc q l).
Qed.

Lemma quadrant_step_some (alerts : catalog) (idx : Z) (probe : Alert)
  (l : list Z) (q : Q * (Alert -> Q) * (Alert -> Q)) :
  exists l', quadrant_step cos_deg sin_deg alerts idx probe (Some l) q = Some l'.
Proof.
  destruct q as [[theta er] ed]. unfold quadrant_step.
  destruct (any _); [|eauto]. destruct (mem idx _); eauto.
Qed.

Lemma fold_some (alerts : catalog) (idx : Z) (probe : Alert)
  (qs : list (Q * (Alert -> Q) * (Alert -> Q))) (l : list Z) :
  exists l', fold_left (quadrant_step cos_deg sin_deg alerts idx probe) qs (Some l) = Some l'.
Proof.
  revert l. induction qs as [|q qs IH]; intros l; simpl; [eauto|].
  destruct (quadrant_step_some alerts idx probe l q) as (l1 & ->). apply IH.
Qed.

Lemma fold_hit_some (alerts : catalog) (idx : Z) (probe : Alert)
  (qs : list (Q * (Alert -> Q) * (Alert -> Q))) (acc : entry)
  (q : Q * (Alert -> Q) * (Alert -> Q)) (j : Z) :
  In q qs -> hit cos_deg sin_deg alerts probe q j ->
  exists l, fold_left (quadrant_step cos_deg sin_deg alerts idx probe) qs acc = Some l.
Proof.
  revert acc. induction qs as [|q' qs IH]; intros acc Hq H; simpl; [destruct Hq|].
  destruct Hq as [->|Hq]; [|auto].
  assert (S : exists l1, quadrant_step cos_deg sin_deg alerts idx probe acc q = Some l1).
  { destruct q as [[theta er] ed]. unfold quadrant_step.
    rewrite (any_hit _ _ _ _ _ _ _ _ H). destruct (mem idx _); eauto. }
  destruct S as (l1 & ->). apply fold_some.
Qed.

Hypothesis trig : exact_on_axes cos_deg sin_deg.

(** With non-zero errors everywhere the dictionary built by the loop is a
    multiplet graph: every alert finds at least its own edge. *)
Lemma raw_graph_well_formed (alerts : catalog) :
  NoDup (index alerts) ->
  (forall i a, In (i, a) alerts -> positive_errors a) ->
  well_formed (map (raw_entry cos_deg sin_deg alerts) alerts).
Proof.
  intros ND P.
  assert (K : keys (map (raw_entry cos_deg sin_deg alerts) alerts) = index alerts)
    by (unfold keys; now rewrite map_map).
  split; [now rewrite K|].
  intros k v H. rewrite K. apply in_map_iff in H. destruct H as ([i a] & E & Hin).
  unfold raw_entry in E. cbn [fst snd] in E. injection E as <- <-.
  destruct (twin_hit cos_deg sin_deg trig alerts i a (P i a Hin) Hin) as (q & Hq & Hh).
  destruct (fold_hit_some alerts i a quadrants None q i Hq Hh) as (l & El).
  exists l. split; [exact El|].
  apply (fold_labels alerts i a quadrants None l); [discriminate | exact El].
Qed.

End Raw.


End ReturnedMapping.

(** ** The aggregation *)

Module AggregationFacts.
Import Weighted AggregationStatements DictFacts BuilderFacts ModFacts.

Section Library.
Variable circmean : list Q -> list ext -> ext.
Variable np_sqrt : ext -> ext.

Lemma members_loop (alerts : catalog) (ms : list Z) (g : list Alert)
  (xs ss : list row) :
  rows_of alerts ms = Some g ->
  for_each ms
    (fun acc tmp_index_2 =>
       a2 <- loc alerts tmp_index_2 ;;
       Ok (fst acc ++ [position a2], snd acc ++ [symmetrized_error a2]))
    (xs, ss)
  = Ok (xs ++ map position g, ss ++ map symmetrized_error g).
Proof.
  revert g xs ss. induction ms as [|m ms IH]; intros g xs ss H; simpl in *.
  - injection H as <-. simpl. now rewrite !app_nil_r.
  - destruct (loc alerts m) as [a|]; [|discriminate].
    destruct (rows_of alerts ms) as [g'|]; [|discriminate].
    injection H as <-. simpl. rewrite (IH g') by reflexivity.
    simpl. now rewrite <- !app_assoc.
Qed.

Lemma get_multiplet_weighted_coords_rows (alerts : catalog) (k : Z) (ms : list Z)
  (g : list Alert) :
  rows_of alerts (k :: ms) = Some g ->
  get_multiplet_weighted_coords circmean np_sqrt k ms alerts = Ok (group_value circmean np_sqrt g).
Proof.
  intros H. simpl in H. unfold get_multiplet_weighted_coords.
  destruct (loc alerts k) as [a|]; [|discriminate].
  destruct (rows_of alerts ms) as [g'|] eqn:E; [|discriminate].
  injection H as <-. simpl.
  rewrite (members_loop alerts ms g' _ _ E). reflexivity.
Qed.

Lemma contribution_keys (alerts : catalog) (l : graph) (k : Z) :
  In k (map fst (flat_map (contribution circmean np_sqrt alerts) l)) -> In k (keys l).
Proof.
  induction l as [|[k' v] r IH]; simpl; [tauto|].
  rewrite map_app, in_app_iff. intros [H|H]; [left | right; auto].
  unfold contribution in H. cbn [fst snd] in H.
  destruct v as [[|m ms]|]; try contradiction.
  destruct (rows_of alerts (k' :: m :: ms)); [|contradiction].
  destruct H as [H|[]]. exact H.
Qed.

Lemma go_through_loop (md pre suf : graph) (alerts : catalog) :
  md = pre ++ suf -> NoDup (keys md) -> aggregable md alerts ->
  for_each (keys suf)
    (fun out tmp_index =>
       tmp_mult_indices <- getitem md tmp_index ;;
       n <- len tmp_mult_indices ;;
       if (0 <? n)%nat then
         members <- iter tmp_mult_indices ;;
         c <- get_multiplet_weighted_coords circmean np_sqrt tmp_index members alerts ;;
         Ok (dict_set (fst out) tmp_index (fst c), dict_set (snd out) tmp_index (snd c))
       else Ok out)
    (positions_of (flat_map (contribution circmean np_sqrt alerts) pre),
     sigmas_of (flat_map (contribution circmean np_sqrt alerts) pre))
  = Ok (positions_of (flat_map (contribution circmean np_sqrt alerts) md),
        sigmas_of (flat_map (contribution circmean np_sqrt alerts) md)).
Proof.
  revert pre. induction suf as [|[k v] suf IH]; intros pre E ND A.
  - subst. now rewrite app_nil_r.
  - assert (Hin : In (k, v) md) by (subst; auto with datatypes).
    assert (Hnext : md = (pre ++ [(k, v)]) ++ suf) by (subst; now rewrite <- app_assoc).
    specialize (IH (pre ++ [(k, v)]) Hnext ND A).
    rewrite flat_map_app in IH. simpl flat_map in IH. rewrite app_nil_r in IH.
    cbn [keys map fst for_each].
    unfold getitem. rewrite (In_dict_get md k v ND Hin). cbn [bind].
    destruct (A k v Hin) as (ms & -> & Hrows).
    destruct ms as [|m ms].
    + cbn. cbn in IH. rewrite app_nil_r in IH. exact IH.
    + destruct Hrows as (g & Hg); [discriminate|].
      change (len (Some (m :: ms))) with (@Ok nat (length (m :: ms))). cbn [bind].
      change (0 <? length (m :: ms))%nat with true. cbv iota.
      cbn [iter bind].
      rewrite (get_multiplet_weighted_coords_rows alerts k (m :: ms) g Hg). cbn [bind fst snd].
      unfold contribution in IH at 2 4. cbn [fst snd] in IH. rewrite Hg in IH.
      assert (Hk : ~ In k (map fst (flat_map (contribution circmean np_sqrt alerts) pre))).
      { intros H. apply contribution_keys in H.
        subst md. unfold keys in ND. rewrite map_app in ND. simpl in ND.
        apply NoDup_remove_2 in ND. apply ND. apply in_or_app. now left. }
      rewrite !dict_set_absent.
      * unfold positions_of, sigmas_of in *. rewrite !map_app in IH. exact IH.
      * unfold keys, sigmas_of. now rewrite map_map.
      * unfold keys, positions_of. now rewrite map_map.
Qed.

Lemma go_through_multiplet_dict_value (md : graph) (alerts : catalog) :
  NoDup (keys md) -> aggregable md alerts ->
  go_through_multiplet_dict circmean np_sqrt md alerts
  = Ok (positions_of (flat_map (contribution circmean np_sqrt alerts) md),
        sigmas_of (flat_map (contribution circmean np_sqrt alerts) md)).
Proof. intros ND A. exact (go_through_loop md [] md alerts eq_refl ND A). Qed.

Lemma contribution_lookup (alerts : catalog) (md : graph) (k : Z) :
  NoDup (keys md) ->
  dict_get (flat_map (contribution circmean np_sqrt alerts) md) k =
  match dict_get md k with
  | Some v => dict_get (contribution circmean np_sqrt alerts (k, v)) k
  | None => None
  end.
Proof.
  induction md as [|[k' v] r IH]; intros ND; [reflexivity|].
  inversion ND as [|? ? Hn ND']; subst. cbn [flat_map dict_get].
  destruct (Z.eqb_spec k k') as [->|N].
  - destruct (contribution circmean np_sqrt alerts (k', v)) as [|[k2 c] l] eqn:E.
    + simpl. apply dict_get_None. intros H. apply Hn.
      now apply (contribution_keys alerts r k').
    + unfold contribution in E. cbn [fst snd] in E.
      destruct v as [[|m ms]|]; try discriminate.
      destruct (rows_of alerts (k' :: m :: ms)); [|discriminate].
      injection E as <- <- <-. simpl. now rewrite Z.eqb_refl.
  - rewrite <- (IH ND').
    unfold contribution. cbn [fst snd].
    destruct v as [[|m ms]|]; try reflexivity.
    destruct (rows_of alerts (k' :: m :: ms)); [|reflexivity].
    simpl. now destruct (Z.eqb_spec k k').
Qed.

Lemma dict_get_map_value {V W : Type} (f : V -> W) (d : dict V) (k : Z) :
  dict_get (map (fun kv => (fst kv, f (snd kv))) d) k = option_map f (dict_get d k).
Proof.
  induction d as [|[k' v] r IH]; simpl; [reflexivity|].
  now destruct (Z.eqb k k').
Qed.

End Library.

End AggregationFacts.

(** * The claims *)

Module EllipseTheorems.
Import Ellipse EllipseFacts Examples.

(** The unit circle around (10, 5): a point on the boundary, the centre, a
    point outside, and a point inside the bounding box but outside the
    contour. *)
Example unit_circle_points :
  map (fun p => is_in_ellipse p 10 5 unit_circle_err unit_circle_err)
      [mkPoint 11 5; mkPoint 10 5; mkPoint 12 5; mkPoint (109 # 10) (59 # 10)]
  = [true; true; false; false].
Proof. vm_compute. reflexivity. Qed.



(** Claim C10.  When a semi-axis of a quadrant is exactly 0, the mask of
    that quadrant is false at every point, the centre included, and the
    result of [is_in_ellipse] is the disjunction of the masks of the other
    quadrants.  The function is total: the division yields [inf] or [nan],
    which compare false, and nothing is raised. *)
Theorem zero_semi_axis_quadrant_empty (q : quadrant) (p : point) (ra dec : Q)
  (ra_err dec_err : Q * Q) :
  axis_ra q ra_err dec_err == 0 \/ axis_dec q ra_err dec_err == 0 ->
  (forall p', mask_at q p' ra dec ra_err dec_err = false) /\
  mask_at q (mkPoint ra dec) ra dec ra_err dec_err = false /\
  is_in_ellipse p ra dec ra_err dec_err =
    existsb (fun q' => mask_at q' p ra dec ra_err dec_err) (other_quadrants q).
Proof.
  intros H.
  assert (Z : forall p', mask_at q p' ra dec ra_err dec_err = false)
    by (intros p'; now apply quadrant_mask_zero).
  split; [exact Z|]. split; [apply Z|].
  rewrite is_in_ellipse_masks. specialize (Z p). unfold mask_at, dRA, dDEC, lower, upper in *.
  destruct q; cbn [other_quadrants all_quadrants filter quadrant_eqb negb existsb];
    cbn [existsb]; rewrite Z; rewrite ?orb_false_r, ?orb_false_l; reflexivity.
Qed.

Lemma zero_semi_axis_quadrant_empty_witness :
  (forall p', mask_at Quad1 p' 10 5 (-(1), 0) unit_circle_err = false) /\
  mask_at Quad1 (mkPoint 10 5) 10 5 (-(1), 0) unit_circle_err = false /\
  is_in_ellipse (mkPoint 10 5) 10 5 (-(1), 0) unit_circle_err =
    existsb (fun q' => mask_at q' (mkPoint 10 5) 10 5 (-(1), 0) unit_circle_err)
            (other_quadrants Quad1).
Proof.
  apply (zero_semi_axis_quadrant_empty Quad1 (mkPoint 10 5) 10 5 (-(1), 0) unit_circle_err).
  left. reflexivity.
Defined.

End EllipseTheorems.

Module OverlapTheorems.
Import Multiplets Ellipse EllipseFacts ModFacts DictFacts BuilderFacts Statements Examples.
Import TouchFacts WrapFacts ResolveFacts ReturnedMapping.

(** Claim C4.  For the catalog of two alerts at RA 359.5 and RA 0.5 with
    the same declination and all four errors equal to 1 degree, the
    dictionary built before the conflict resolution holds each alert in the
    touching set of the other: the overlap across the 360/0 boundary is
    found.  (Exact arithmetic; the two library functions give the exact
    values on the axes.) *)
Theorem wraparound_overlap_detected (cos_deg sin_deg : Q -> Q) (iA iB : Z) (dec : Q) :
  exact_on_axes cos_deg sin_deg -> iA <> iB ->
  exists g,
    build_multiplets cos_deg sin_deg (wrap_catalog iA iB dec) = Ok g /\
    reports g iA iB /\ reports g iB iA.
Proof.
  intros T N.
  assert (ND : NoDup (index (wrap_catalog iA iB dec))).
  { simpl. repeat constructor; simpl; intuition. }
  exists (map (raw_entry cos_deg sin_deg (wrap_catalog iA iB dec)) (wrap_catalog iA iB dec)).
  split; [now apply build_multiplets_rows|].
  split.
  - eapply (build_multiplets_reports cos_deg sin_deg _ iA iB);
      [exact ND | simpl; auto | auto | | apply (wrap_hit_A cos_deg sin_deg T)].
    simpl; auto.
  - eapply (build_multiplets_reports cos_deg sin_deg _ iB iA);
      [exact ND | simpl; auto | auto | | apply (wrap_hit_B cos_deg sin_deg T)].
    simpl; auto.
Qed.

Lemma wraparound_overlap_detected_witness :
  exists g,
    build_multiplets cos_deg_rat sin_deg_rat (wrap_catalog 1 2 0) = Ok g /\
    reports g 1 2 /\ reports g 2 1.
Proof.
  apply (wraparound_overlap_detected cos_deg_rat sin_deg_rat 1 2 0).
  - exact exact_on_axes_rat.
  - discriminate.
Defined.



(** The function on two twins alone in a catalog. *)
Example twin_catalog_returned :
  get_multiplet_index_dictionary cos_deg_rat sin_deg_rat twin_catalog
  = Ok [(1%Z, Some [2%Z]); (2%Z, Some [])].
Proof. vm_compute. reflexivity. Qed.


End OverlapTheorems.

Module ResolveTheorems.
Import Multiplets DictFacts ResolveFacts Statements Examples.

Ltac solve_well_formed :=
  split;
  [ repeat constructor; simpl; intuition discriminate
  | intros k v H; simpl in H;
    repeat (destruct H as [H|H]; [injection H as <- <-; eexists; split; [reflexivity|];
                                  intros m Hm; simpl in Hm |- *; intuition auto|]);
    destruct H ].

Lemma well_formed_pair_graph : well_formed pair_graph.
Proof. solve_well_formed. Qed.

Lemma well_formed_pair_graph_swapped : well_formed pair_graph_swapped.
Proof. solve_well_formed. Qed.

Lemma well_formed_clique3 : well_formed clique3.
Proof. solve_well_formed. Qed.

Lemma marked_reordering (g g' : graph) (k : Z) :
  reordering g g' -> mem k (decisions g) = mem k (decisions g').
Proof.
  intros [_ Hm].
  assert (Hsize : forall x, size g x = size g' x)
    by (intros x; apply Permutation_length, Hm).
  assert (Hloser : forall x y, loser g x y = loser g' x y)
    by (intros x y; unfold loser; now rewrite !Hsize).
  assert (Hmut : forall x y, mutual g x y <-> mutual g' x y).
  { intros x y. unfold mutual.
    split; intros [H1 H2]; split;
      (eapply Permutation_in; [|eassumption]); auto using Permutation_sym. }
  destruct (mem k (decisions g')) eqn:E.
  - apply mem_In. apply mem_In in E. apply marked_iff_loses.
    apply marked_iff_loses in E. destruct E as (c & M & L).
    exists c. split; [now apply Hmut | now rewrite Hloser].
  - apply mem_false. apply mem_false in E. intros H. apply E.
    apply marked_iff_loses. apply marked_iff_loses in H. destruct H as (c & M & L).
    exists c. split; [now apply Hmut | now rewrite <- Hloser].
Qed.

(** Claim C6.  The resolution pass computes every removal from the graph
    as it came in and applies the removals afterwards: on every multiplet
    graph it returns the result of the two-pass reference, and visiting the
    keys, or the members of an entry, in another order gives the same
    resolved mapping. *)
Theorem resolve_order_independent (g g' : graph) :
  well_formed g -> well_formed g' -> reordering g g' ->
  resolve g = Ok (resolve_two_pass g) /\
  resolve g' = Ok (resolve_two_pass g') /\
  reordering (resolve_two_pass g) (resolve_two_pass g').
Proof.
  intros W W' R. split; [now apply resolve_refines|].
  split; [now apply resolve_refines|].
  split.
  - unfold resolve_two_pass. rewrite !keys_apply_decisions. apply R.
  - intros k. rewrite !members_resolve_two_pass.
    rewrite <- (marked_reordering g g' k R).
    destruct (mem k (decisions g)); [constructor | apply R].
Qed.

Lemma resolve_order_independent_witness :
  resolve pair_graph = Ok (resolve_two_pass pair_graph) /\
  resolve pair_graph_swapped = Ok (resolve_two_pass pair_graph_swapped) /\
  reordering (resolve_two_pass pair_graph) (resolve_two_pass pair_graph_swapped).
Proof.
  apply (resolve_order_independent pair_graph pair_graph_swapped).
  - exact well_formed_pair_graph.
  - exact well_formed_pair_graph_swapped.
  - split.
    + simpl. apply perm_swap.
    + intros k. unfold members. simpl.
      destruct (Z.eqb_spec k 1) as [->|N1]; simpl; [reflexivity|].
      destruct (k =? 2)%Z; reflexivity.
Defined.

(** Claim C7.  The resolution pass is idempotent: run on its own output it
    returns that output unchanged. *)
Theorem resolve_idempotent (g : graph) :
  well_formed g ->
  exists r, resolve g = Ok r /\ resolve r = Ok r.
Proof.
  intros W. exists (resolve_two_pass g). split; [now apply resolve_refines|].
  rewrite resolve_refines by now apply well_formed_resolve_two_pass.
  unfold resolve_two_pass at 1. rewrite decisions_resolved.
  now rewrite apply_decisions_nil.
Qed.

Lemma resolve_idempotent_witness :
  exists r, resolve clique3 = Ok r /\ resolve r = Ok r.
Proof. apply (resolve_idempotent clique3). exact well_formed_clique3. Defined.

(** Claim C2, as amended.  For every multiplet graph in which [a] and [b]
    hold each other, the resolution empties the entry of the side with the
    strictly smaller touching set and, when the two sizes are equal, the
    entry of the larger index; every entry that loses none of its own mutual
    pairs is left as it was. *)
Theorem resolve_mutual_pair (g : graph) (a b : Z) :
  well_formed g -> mutual g a b ->
  exists r,
    resolve g = Ok r /\
    ((size g a < size g b)%nat -> dict_get r a = Some (Some [])) /\
    ((size g b < size g a)%nat -> dict_get r b = Some (Some [])) /\
    (size g a = size g b -> dict_get r (Z.max a b) = Some (Some [])) /\
    (forall k, (forall c, mutual g k c -> loser g k c <> k) ->
               dict_get r k = dict_get g k).
Proof.
  intros W M. exists (resolve_two_pass g).
  split; [now apply resolve_refines|].
  assert (L : dict_get (resolve_two_pass g) (loser g a b) = Some (Some [])).
  { pose proof (mutual_decision g a b M) as HL.
    unfold resolve_two_pass. rewrite dict_get_apply_decisions.
    destruct (well_formed_entry g _ W (decisions_keys g _ HL)) as [-> _].
    apply mem_In in HL. now rewrite HL. }
  unfold loser in L.
  repeat split.
  - intros H. apply Nat.ltb_lt in H. now rewrite H in L.
  - intros H. destruct (Nat.ltb_spec (size g a) (size g b)); [lia|].
    apply Nat.ltb_lt in H. now rewrite H in L.
  - intros H. rewrite H, Nat.ltb_irrefl in L. exact L.
  - intros k Hk. unfold resolve_two_pass. rewrite dict_get_apply_decisions.
    destruct (mem k (decisions g)) eqn:E.
    + apply mem_In, marked_iff_loses in E. destruct E as (c & Mc & Lc).
      exfalso. exact (Hk c Mc Lc).
    + now destruct (dict_get g k).
Qed.

Lemma resolve_mutual_pair_witness :
  exists r,
    resolve pair_graph = Ok r /\
    ((size pair_graph 1 < size pair_graph 2)%nat -> dict_get r 1%Z = Some (Some [])) /\
    ((size pair_graph 2 < size pair_graph 1)%nat -> dict_get r 2%Z = Some (Some [])) /\
    (size pair_graph 1 = size pair_graph 2 -> dict_get r (Z.max 1 2) = Some (Some [])) /\
    (forall k, (forall c, mutual pair_graph k c -> loser pair_graph k c <> k) ->
               dict_get r k = dict_get pair_graph k).
Proof.
  apply (resolve_mutual_pair pair_graph 1 2).
  - exact well_formed_pair_graph.
  - unfold mutual, members. simpl. auto.
Defined.

(** Three alerts that all touch each other: two entries are emptied. *)
Example clique3_resolved :
  resolve clique3 = Ok [(0, Some [1; 2]); (1, Some []); (2, Some [])]%Z.
Proof. reflexivity. Qed.

(** Claim C2 as stated fails on three alerts that all touch each other:
    the pair [(0, 1)] is mutual with equal sizes, yet the entry of the third
    alert, which is neither 0 nor 1, is emptied too (it loses its own pair
    against 0). *)
Lemma resolve_mutual_pair_counterexample :
  ~ (forall (g : graph) (a b : Z) (r : graph),
       well_formed g -> a <> b -> mutual g a b -> resolve g = Ok r ->
       ((size g a < size g b)%nat -> dict_get r a = Some (Some [])) /\
       (size g a = size g b ->
        dict_get r (Z.max a b) = Some (Some []) /\
        dict_get r (Z.min a b) = dict_get g (Z.min a b)) /\
       (forall k, k <> a -> k <> b -> dict_get r k = dict_get g k)).
Proof.
  intros H.
  destruct (H clique3 0%Z 1%Z [(0, Some [1; 2]); (1, Some []); (2, Some [])]%Z)
    as (_ & _ & H3).
  - exact well_formed_clique3.
  - discriminate.
  - unfold mutual, members. simpl. auto.
  - reflexivity.
  - specialize (H3 2%Z). simpl in H3. discriminate H3; discriminate.
Qed.

End ResolveTheorems.

Module AggregationTheorems.
Import Weighted AggregationStatements AggregationExamples DictFacts BuilderFacts ModFacts AggregationFacts Examples.

Lemma py_mod_small (x : Q) : 0 <= x -> x < 360 -> py_mod x 360 == x.
Proof.
  intros H1 H2. unfold py_mod.
  rewrite (floor_unique x 0) by (change (inject_Z 0) with 0; lra).
  change (inject_Z 0) with 0. ring.
Qed.

Lemma group_value_axes (circmean : list Q -> list ext -> ext) (np_sqrt : ext -> ext)
  (g : list Alert) :
  group_value circmean np_sqrt g =
  ((weighted_circular_mean circmean (map RA g) (map sigma_ra g),
    weighted_circular_mean circmean (map DEC g) (map sigma_dec g)),
   (pooled_sigma np_sqrt (map sigma_ra g),
    pooled_sigma np_sqrt (map sigma_dec g))).
Proof.
  unfold group_value, get_weighted_coords, weighted_circular_mean, pooled_sigma.
  rewrite !map_map. reflexivity.
Qed.


Lemma aggregable_pair_graph : aggregable pair_graph twin_catalog.
Proof.
  intros k v H. simpl in H.
  destruct H as [H|[H|[]]]; injection H as <- <-; eexists; (split; [reflexivity|]);
    intros _; eexists; reflexivity.
Qed.


Section One.
Variable circmean : list Q -> list ext -> ext.
Variable np_sqrt : ext -> ext.

Lemma mean_of_one_mod (x s : Q) :
  mean_of_one circmean x s ->
  ext_eq (ext_mod (circmean [x] [inv_square s]) 360) (Fin (py_mod x 360)).
Proof.
  intros (k & H). destruct (circmean [x] [inv_square s]) as [z| | |]; try contradiction.
  simpl in *. rewrite H. apply py_mod_shift.
Qed.

Lemma root_of_one_inv (s : Q) :
  0 < s -> root_of_one np_sqrt s ->
  ext_eq (ext_div (Fin 1) (np_sqrt (column_sum [inv_square s]))) (Fin s).
Proof.
  intros Hs H. unfold root_of_one in H.
  destruct (np_sqrt (column_sum [inv_square s])) as [r| | |]; try contradiction.
  simpl in H. unfold ext_div.
  assert (Hr : ~ r == 0).
  { rewrite H. intros E. assert (0 < 1 / s) by (apply Qlt_shift_div_l; lra). lra. }
  destruct (Qeq_zero r) eqn:Z.
  - exfalso. apply Hr. now apply Qeq_bool_iff.
  - simpl. rewrite H. field. lra.
Qed.

End One.




(** Claim C5.  On one threshold whose multiplets hold one non-empty group
    the threshold variant raises [NameError] instead of returning the
    aggregation under that threshold: line 221 reads [tmp_threshold], a name
    that is bound nowhere; the loop variable is [tmp_area]. *)
Theorem threshold_variant_raises (circmean : list Q -> list ext -> ext)
  (np_sqrt : ext -> ext) :
  go_through_threshold_multiplet_dict circmean np_sqrt threshold_example twin_catalog
  = Raise NameError.
Proof. reflexivity. Qed.

Lemma threshold_loop_never_stores {X : Type} (circmean : list Q -> list ext -> ext)
  (np_sqrt : ext -> ext) (d : dict (X * graph)) (alerts : catalog) (ks : list Z)
  (r : dict (dict erow) * dict (dict erow)) :
  for_each ks
    (fun out tmp_area =>
       item <- getitem d tmp_area ;;
       let tmp_multiplets := snd item in
       w <- go_through_multiplet_dict circmean np_sqrt tmp_multiplets alerts ;;
       if (0 <? length (fst w))%nat then
         tmp_threshold <- load_name [("tmp_area"%string, tmp_area)] "tmp_threshold" ;;
         Ok (dict_set (fst out) tmp_threshold (fst w),
             dict_set (snd out) tmp_threshold (snd w))
       else Ok out)
    ([], []) = Ok r ->
  r = ([], []).
Proof.
  induction ks as [|k ks IH]; simpl.
  - now intros [= <-].
  - destruct (getitem d k) as [item|]; [|discriminate]. simpl.
    destruct (go_through_multiplet_dict circmean np_sqrt (snd item) alerts) as [w|];
      [|discriminate]. simpl.
    destruct (0 <? length (fst w))%nat; [discriminate | exact IH].
Qed.

(** Property X18: whatever the input, the threshold variant stores nothing: it
    returns two empty dictionaries or raises. *)
Theorem threshold_variant_never_stores {X : Type}
  (circmean : list Q -> list ext -> ext) (np_sqrt : ext -> ext)
  (d : dict (X * graph)) (alerts : catalog)
  (r : dict (dict erow) * dict (dict erow)) :
  go_through_threshold_multiplet_dict circmean np_sqrt d alerts = Ok r -> r = ([], []).
Proof. apply threshold_loop_never_stores. Qed.

End AggregationTheorems.

(** * Further properties of the code *)

Module EllipseMore.
Import Ellipse EllipseFacts ModFacts Examples TouchFacts.

#[export] Instance inside_contour_proper :
  Proper (Qeq ==> Qeq ==> Qeq ==> Qeq ==> iff) inside_contour.
Proof.
  intros x x' Hx a a' Ha y y' Hy b b' Hb. unfold inside_contour.
  now rewrite Hx, Ha, Hy, Hb.
Qed.

#[export] Instance in_quadrant_proper (q : quadrant) :
  Proper (Qeq ==> Qeq ==> iff) (in_quadrant q).
Proof.
  intros x x' Hx y y' Hy. destruct q; simpl; now rewrite Hx, Hy.
Qed.

Lemma within_contour_eq (x a a' y b b' : Q) :
  a == a' -> b == b' -> within_contour x a y b = within_contour x a' y b'.
Proof.
  intros Ha Hb. apply eq_true_iff_eq. rewrite !within_contour_spec.
  now rewrite Ha, Hb.
Qed.

Lemma rel_ra_eq (p : point) (ra lo lo' hi hi' : Q) :
  lo == lo' -> hi == hi' -> rel_ra p ra lo hi = rel_ra p ra lo' hi'.
Proof.
  intros Hlo Hhi. unfold rel_ra.
  assert (E1 : Qle_bool 360 (ra + hi) = Qle_bool 360 (ra + hi'))
    by (apply Qleb_comp; [reflexivity | now rewrite Hhi]).
  assert (E2 : Qle_bool (ra + lo) 0 = Qle_bool (ra + lo') 0)
    by (apply Qleb_comp; [now rewrite Hlo | reflexivity]).
  now rewrite E1, E2.
Qed.

Lemma quadrant_mask_eq (q : quadrant) (t d lo lo' hi hi' dlo dlo' dhi dhi' : Q) :
  lo == lo' -> hi == hi' -> dlo == dlo' -> dhi == dhi' ->
  quadrant_mask q t d lo hi dlo dhi = quadrant_mask q t d lo' hi' dlo' dhi'.
Proof.
  intros H1 H2 H3 H4.
  destruct q; simpl; unfold mask1, mask2, mask3, mask4;
    rewrite ?(Qleb_comp _ _ (Qeq_refl t) _ _ H2), ?(Qleb_comp _ _ (Qeq_refl d) _ _ H4),
            ?(Qleb_comp _ _ H1 _ _ (Qeq_refl t)), ?(Qleb_comp _ _ H3 _ _ (Qeq_refl d));
    f_equal; now apply within_contour_eq.
Qed.

(** The function reads its error pairs through [min] and [max] only. *)
Lemma is_in_ellipse_bounds (p : point) (ra dec : Q) (ra_err ra_err' dec_err dec_err' : Q * Q) :
  lower ra_err == lower ra_err' -> upper ra_err == upper ra_err' ->
  lower dec_err == lower dec_err' -> upper dec_err == upper dec_err' ->
  is_in_ellipse p ra dec ra_err dec_err = is_in_ellipse p ra dec ra_err' dec_err'.
Proof.
  unfold lower, upper. intros H1 H2 H3 H4.
  rewrite !is_in_ellipse_masks. rewrite (rel_ra_eq p ra _ _ _ _ H1 H2).
  cbn [existsb].
  rewrite (quadrant_mask_eq Quad1 _ _ _ _ _ _ _ _ _ _ H1 H2 H3 H4),
          (quadrant_mask_eq Quad2 _ _ _ _ _ _ _ _ _ _ H1 H2 H3 H4),
          (quadrant_mask_eq Quad3 _ _ _ _ _ _ _ _ _ _ H1 H2 H3 H4),
          (quadrant_mask_eq Quad4 _ _ _ _ _ _ _ _ _ _ H1 H2 H3 H4).
  reflexivity.
Qed.

(** Property X1: the order of the two bounds of an error pair does not matter. *)
Theorem is_in_ellipse_bounds_order (p : point) (ra dec a b c d : Q) :
  is_in_ellipse p ra dec (a, b) (c, d) = is_in_ellipse p ra dec (b, a) (c, d) /\
  is_in_ellipse p ra dec (a, b) (c, d) = is_in_ellipse p ra dec (a, b) (d, c).
Proof.
  split; apply is_in_ellipse_bounds; unfold lower, upper; cbn [fst snd];
    try reflexivity; first [apply Q.min_comm | apply Q.max_comm].
Qed.


Lemma inside_contour_opp (x a y b : Q) :
  (inside_contour x (- a) y b <-> inside_contour x a y b) /\
  (inside_contour x a y (- b) <-> inside_contour x a y b).
Proof.
  unfold inside_contour.
  assert (Ea : (- a) ^ 2 == a ^ 2) by (rewrite !Qsqr; ring).
  assert (Eb : (- b) ^ 2 == b ^ 2) by (rewrite !Qsqr; ring).
  rewrite Ea, Eb.
  assert (Za : - a == 0 <-> a == 0) by (split; intros H; lra).
  assert (Zb : - b == 0 <-> b == 0) by (split; intros H; lra).
  rewrite Za, Zb. tauto.
Qed.

Lemma Qle_bool_false (x y : Q) : y < x -> Qle_bool x y = false.
Proof.
  intros H. apply not_true_iff_false. rewrite Qle_bool_iff. lra.
Qed.

Lemma Qle_bool_true (x y : Q) : x <= y -> Qle_bool x y = true.
Proof. apply Qle_bool_iff. Qed.

(** Away from the 0/360 boundary no correction applies. *)
Lemma rel_ra_plain (p : point) (ra lo hi : Q) :
  0 < ra + lo -> ra + hi < 360 -> rel_ra p ra lo hi = pRA p - ra.
Proof.
  intros H1 H2. unfold rel_ra.
  now rewrite (Qle_bool_false 360 (ra + hi) H2), (Qle_bool_false (ra + lo) 0 H1).
Qed.



Lemma rel_ra_centre (ra dec lo hi : Q) : rel_ra (mkPoint ra dec) ra lo hi == 0.
Proof.
  unfold rel_ra. cbn [pRA].
  assert (E : ra - ra == 0) by ring.
  assert (M : py_mod 0 360 == 0) by reflexivity.
  assert (N : - 0 == 0) by reflexivity.
  destruct (Qle_bool 360 (ra + hi)); destruct (Qle_bool (ra + lo) 0);
    rewrite ?E, ?M, ?N, ?M, ?N; try reflexivity; exact E.
Qed.



(** Property X6: a point the test accepts has its corrected offsets within the
    errors: the masks never reach beyond the bounding box. *)
Theorem inside_within_errors (p : point) (ra dec : Q) (ra_err dec_err : Q * Q) :
  lower ra_err <= 0 -> 0 <= upper ra_err ->
  lower dec_err <= 0 -> 0 <= upper dec_err ->
  is_in_ellipse p ra dec ra_err dec_err = true ->
  lower ra_err <= dRA p ra ra_err /\ dRA p ra ra_err <= upper ra_err /\
  lower dec_err <= dDEC p dec /\ dDEC p dec <= upper dec_err.
Proof.
  unfold dRA, dDEC, lower, upper. intros H1 H2 H3 H4 H.
  rewrite is_in_ellipse_masks in H. apply existsb_exists in H.
  destruct H as (q & _ & H).
  destruct q; cbn [quadrant_mask] in H; unfold mask1, mask2, mask3, mask4 in H;
    rewrite !andb_true_iff, !Qle_bool_iff in H;
    destruct H as [[[A1 A2] [A3 A4]] _]; repeat split; lra.
Qed.

Lemma inside_within_errors_witness :
  is_in_ellipse (mkPoint 11 5) 10 5 unit_circle_err unit_circle_err = true /\
  (lower unit_circle_err <= dRA (mkPoint 11 5) 10 unit_circle_err /\
   dRA (mkPoint 11 5) 10 unit_circle_err <= upper unit_circle_err /\
   lower unit_circle_err <= dDEC (mkPoint 11 5) 5 /\
   dDEC (mkPoint 11 5) 5 <= upper unit_circle_err).
Proof.
  split; [reflexivity|].
  apply (inside_within_errors (mkPoint 11 5) 10 5 unit_circle_err unit_circle_err);
    vm_compute; first [discriminate | reflexivity].
Defined.

Lemma py_mod_below (t : Q) : - (360) < t -> t < 0 -> py_mod t 360 == t + 360.
Proof.
  intros H1 H2. unfold py_mod.
  rewrite (floor_unique t (-1)) by (change (inject_Z (-1)) with (- (1)); lra).
  change (inject_Z (-1)) with (- (1)). ring.
Qed.

Lemma masks_false_below (p : point) (ra dec : Q) (ra_err dec_err : Q * Q) :
  dRA p ra ra_err < 0 -> dRA p ra ra_err < lower ra_err ->
  is_in_ellipse p ra dec ra_err dec_err = false.
Proof.
  unfold dRA, lower, upper. intros H1 H2.
  unfold is_in_ellipse, mask1, mask2, mask3, mask4.
  rewrite (Qle_bool_false 0 _ H1), (Qle_bool_false _ _ H2).
  now rewrite !andb_false_r.
Qed.

Lemma masks_false_above (p : point) (ra dec : Q) (ra_err dec_err : Q * Q) :
  0 < dRA p ra ra_err -> upper ra_err < dRA p ra ra_err ->
  is_in_ellipse p ra dec ra_err dec_err = false.
Proof.
  unfold dRA, lower, upper. intros H1 H2.
  unfold is_in_ellipse, mask1, mask2, mask3, mask4.
  rewrite (Qle_bool_false _ 0 H1), (Qle_bool_false _ _ H2).
  now rewrite !andb_false_r.
Qed.

(** Property X4: when the ellipse reaches under 0 degrees (and not over 360), the
    correction of lines 33-35 turns every offset to the east into one of a
    full turn less: a point east of the centre is outside unless that
    offset is still within the western error. *)
Theorem east_of_centre_lost (p : point) (ra dec : Q) (ra_err dec_err : Q * Q) :
  ra + lower ra_err <= 0 -> ra + upper ra_err < 360 ->
  0 < pRA p - ra -> pRA p - ra < 360 ->
  pRA p - ra - 360 < lower ra_err ->
  is_in_ellipse p ra dec ra_err dec_err = false.
Proof.
  intros Hlo Hhi T1 T2 T3.
  assert (E : dRA p ra ra_err == pRA p - ra - 360).
  { unfold dRA, rel_ra.
    rewrite (Qle_bool_false 360 _ Hhi), (Qle_bool_true _ 0 Hlo).
    rewrite py_mod_below by lra. ring. }
  apply masks_false_below; rewrite E; lra.
Qed.

Lemma east_of_centre_lost_witness :
  is_in_ellipse (mkPoint 1 5) (1 # 2) 5 (1, - (1)) (1, - (1)) = false.
Proof.
  apply (east_of_centre_lost (mkPoint 1 5) (1 # 2) 5 (1, - (1)) (1, - (1)));
    vm_compute; first [discriminate | reflexivity].
Defined.

(** Property X5: when the ellipse reaches over 360 degrees (and not under 0), the
    correction of lines 30-31 turns every offset to the west into one of a
    full turn more: a point west of the centre is outside unless that
    offset is still within the eastern error. *)
Theorem west_of_centre_lost (p : point) (ra dec : Q) (ra_err dec_err : Q * Q) :
  360 <= ra + upper ra_err -> 0 < ra + lower ra_err ->
  pRA p - ra < 0 -> - (360) < pRA p - ra ->
  upper ra_err < pRA p - ra + 360 ->
  is_in_ellipse p ra dec ra_err dec_err = false.
Proof.
  intros Hhi Hlo T1 T2 T3.
  assert (E : dRA p ra ra_err == pRA p - ra + 360).
  { unfold dRA, rel_ra.
    rewrite (Qle_bool_true 360 _ Hhi), (Qle_bool_false _ 0 Hlo).
    now apply py_mod_below. }
  apply masks_false_above; rewrite E; lra.
Qed.

Lemma west_of_centre_lost_witness :
  is_in_ellipse (mkPoint 359 5) (719 # 2) 5 (1, - (1)) (1, - (1)) = false.
Proof.
  apply (west_of_centre_lost (mkPoint 359 5) (719 # 2) 5 (1, - (1)) (1, - (1)));
    vm_compute; first [discriminate | reflexivity].
Defined.

End EllipseMore.

Module GraphMore.
Import Multiplets Ellipse EllipseFacts ModFacts DictFacts BuilderFacts Statements Examples.
Import TouchFacts WrapFacts ResolveFacts ReturnedMapping MoreStatements MoreExamples.

Section Loop.
Variables cos_deg sin_deg : Q -> Q.

Lemma any_no_hit (alerts : catalog) (probe : Alert)
  (theta : Q) (er ed : Alert -> Q) :
  any (in_ellipse_mask cos_deg sin_deg alerts probe theta er ed) = false ->
  forall j, ~ hit cos_deg sin_deg alerts probe (theta, er, ed) j.
Proof.
  intros A j H. rewrite (any_hit _ _ _ _ _ _ _ _ H) in A. discriminate.
Qed.

(** One round of the loop over the quadrants keeps the accumulator exact. *)
Lemma quadrant_step_spec (alerts : catalog) (idx : Z) (probe : Alert)
  (done : list (Q * (Alert -> Q) * (Alert -> Q))) (acc : entry)
  (q : Q * (Alert -> Q) * (Alert -> Q)) :
  touching_spec cos_deg sin_deg alerts idx probe done acc ->
  touching_spec cos_deg sin_deg alerts idx probe (done ++ [q])
    (quadrant_step cos_deg sin_deg alerts idx probe acc q).
Proof.
  intros IH. destruct q as [[theta er] ed]. unfold quadrant_step.
  destruct (any _) eqn:A.
  - set (found := match acc with
                  | Some l => drop_duplicates (l ++ masked_index alerts _)
                  | None => drop_duplicates (masked_index alerts _)
                  end).
    assert (F : forall j, In j found <->
                  (match acc with Some l => In j l | None => False end)
                  \/ hit cos_deg sin_deg alerts probe (theta, er, ed) j).
    { intros j. unfold found. destruct acc as [l|];
        rewrite In_drop_duplicates, ?in_app_iff, masked_index_hit; tauto. }
    assert (R : forall j,
               In j (if mem idx found then drop idx found else found) <->
               In j found /\ j <> idx).
    { intros j. destruct (mem idx found) eqn:M; [apply In_drop|].
      apply mem_false in M. split; [|tauto].
      intros H. split; [exact H | intros ->; contradiction]. }
    assert (S : touching_spec cos_deg sin_deg alerts idx probe (done ++ [(theta, er, ed)])
                  (Some (if mem idx found then drop idx found else found))).
    { intros j. rewrite R, F. destruct acc as [l|]; simpl in IH.
      - rewrite IH. split.
        + intros [[[N (q & Hq & H)] | H] N'].
          * split; [exact N|]. exists q. split; [apply in_or_app; now left | exact H].
          * split; [exact N'|]. eexists. split; [apply in_or_app; right; now left | exact H].
        + intros [N (q & Hq & H)]. split; [|exact N].
          apply in_app_or in Hq. destruct Hq as [Hq | [<- | []]]; [left | right; exact H].
          split; [exact N | eauto].
      - split.
        + intros [[[] | H] N]. split; [exact N|].
          eexists. split; [apply in_or_app; right; now left | exact H].
        + intros [N (q & Hq & H)]. split; [|exact N].
          apply in_app_or in Hq. destruct Hq as [Hq | [<- | []]]; [|right; exact H].
          exfalso. exact (IH q j Hq H). }
    destruct (mem idx found); exact S.
  - pose proof (any_no_hit alerts probe theta er ed A) as NH.
    destruct acc as [l|]; simpl in *.
    + intros j. rewrite IH. split; intros [N (q & Hq & H)]; (split; [exact N|]).
      * exists q. split; [apply in_or_app; now left | exact H].
      * apply in_app_or in Hq. destruct Hq as [Hq | [<- | []]]; [eauto|].
        exfalso. exact (NH j H).
    + intros q j Hq H. apply in_app_or in Hq. destruct Hq as [Hq | [<- | []]].
      * exact (IH q j Hq H).
      * exact (NH j H).
Qed.

Lemma fold_spec (alerts : catalog) (idx : Z) (probe : Alert)
  (qs done : list (Q * (Alert -> Q) * (Alert -> Q))) (acc : entry) :
  touching_spec cos_deg sin_deg alerts idx probe done acc ->
  touching_spec cos_deg sin_deg alerts idx probe (done ++ qs)
    (fold_left (quadrant_step cos_deg sin_deg alerts idx probe) qs acc).
Proof.
  revert done acc. induction qs as [|q qs IH]; intros done acc H; simpl.
  - now rewrite app_nil_r.
  - replace (done ++ q :: qs) with ((done ++ [q]) ++ qs) by now rewrite <- app_assoc.
    apply IH. now apply quadrant_step_spec.
Qed.

End Loop.

(** Property X7: the touching set of an alert holds exactly the labels, other than its
    own, of the rows with a sampled edge point in its ellipse; it is [None]
    when no row has such a point. *)
Theorem touching_exactly (cos_deg sin_deg : Q -> Q) (alerts : catalog)
  (idx : Z) (probe : Alert) :
  match touching cos_deg sin_deg alerts idx probe with
  | None => forall q j, In q quadrants -> ~ hit cos_deg sin_deg alerts probe q j
  | Some l =>
      forall j, In j l <->
        j <> idx /\ exists q, In q quadrants /\ hit cos_deg sin_deg alerts probe q j
  end.
Proof.
  unfold touching.
  apply (fold_spec cos_deg sin_deg alerts idx probe quadrants [] None).
  intros q j [].
Qed.

Lemma NoDup_drop_duplicates_from (seen l : list Z) :
  NoDup (drop_duplicates_from seen l).
Proof.
  revert seen. induction l as [|x r IH]; intros seen; simpl; [constructor|].
  destruct (mem x seen); [apply IH|].
  constructor; [|apply IH].
  rewrite In_drop_duplicates_from. intros [_ H]. apply H. now left.
Qed.

Section Shape.
Variables cos_deg sin_deg : Q -> Q.

Lemma quadrant_step_nodup (alerts : catalog) (idx : Z) (probe : Alert)
  (acc : entry) (q : Q * (Alert -> Q) * (Alert -> Q)) (l' : list Z) :
  (forall l, acc = Some l -> NoDup l) ->
  quadrant_step cos_deg sin_deg alerts idx probe acc q = Some l' -> NoDup l'.
Proof.
  intros Hacc. destruct q as [[theta er] ed]. unfold quadrant_step.
  destruct (any _); [|intros E; exact (Hacc l' E)].
  set (found := match acc with
                | Some l => drop_duplicates (l ++ masked_index alerts _)
                | None => drop_duplicates (masked_index alerts _)
                end).
  assert (F : NoDup found)
    by (unfold found; destruct acc; apply NoDup_drop_duplicates_from).
  destruct (mem idx found); intros [= <-]; [|exact F].
  now apply NoDup_filter.
Qed.

Lemma fold_nodup (alerts : catalog) (idx : Z) (probe : Alert)
  (qs : list (Q * (Alert -> Q) * (Alert -> Q))) (acc : entry) (l' : list Z) :
  (forall l, acc = Some l -> NoDup l) ->
  fold_left (quadrant_step cos_deg sin_deg alerts idx probe) qs acc = Some l' ->
  NoDup l'.
Proof.
  revert acc. induction qs as [|q qs IH]; intros acc Hacc; simpl.
  - intros E. exact (Hacc l' E).
  - apply IH. intros l E. now apply (quadrant_step_nodup alerts idx probe acc q l).
Qed.

Lemma raw_entry_shape (alerts : catalog) (k : Z) (l : list Z) :
  NoDup (index alerts) ->
  dict_get (map (raw_entry cos_deg sin_deg alerts) alerts) k = Some (Some l) ->
  NoDup l /\ ~ In k l /\ forall m, In m l -> In m (index alerts).
Proof.
  intros ND H. apply dict_get_In, in_map_iff in H.
  destruct H as ([i a] & E & Hin). unfold raw_entry in E. cbn [fst snd] in E.
  injection E as <- E.
  pose proof (touching_exactly cos_deg sin_deg alerts i a) as T. rewrite E in T.
  split; [|split].
  - apply (fold_nodup alerts i a quadrants None l); [discriminate | exact E].
  - intros Hk. apply T in Hk. now destruct Hk.
  - intros m Hm. apply T in Hm. destruct Hm as (_ & q & _ & am & p & Ham & _).
    change m with (fst (m, am)). now apply in_map.
Qed.

End Shape.

(** Property X8: on a catalog with unique labels the loop over the alerts never
    raises; the dictionary has one key per row, in row order, and every
    entry that is a sequence has no label twice, does not hold its own key
    and holds labels of the catalog only. *)
Theorem raw_dictionary_shape (cos_deg sin_deg : Q -> Q) (alerts : catalog) :
  NoDup (index alerts) ->
  exists g,
    build_multiplets cos_deg sin_deg alerts = Ok g /\
    keys g = index alerts /\
    forall k l, dict_get g k = Some (Some l) ->
      NoDup l /\ ~ In k l /\ forall m, In m l -> In m (index alerts).
Proof.
  intros ND. exists (map (raw_entry cos_deg sin_deg alerts) alerts).
  split; [now apply build_multiplets_rows|].
  split; [unfold keys; now rewrite map_map|].
  intros k l. now apply raw_entry_shape.
Qed.

Lemma NoDup_twin_catalog : NoDup (index twin_catalog).
Proof. repeat constructor; simpl; intuition discriminate. Qed.

Lemma raw_dictionary_shape_witness :
  exists g,
    build_multiplets cos_deg_rat sin_deg_rat twin_catalog = Ok g /\
    keys g = index twin_catalog /\
    forall k l, dict_get g k = Some (Some l) ->
      NoDup l /\ ~ In k l /\ forall m, In m l -> In m (index twin_catalog).
Proof.
  apply (raw_dictionary_shape cos_deg_rat sin_deg_rat twin_catalog).
  exact NoDup_twin_catalog.
Defined.

(** ** An alert without extent *)

Lemma flat_probe_contains_nothing (probe : Alert) (p : point) :
  flat_axis probe ->
  is_in_ellipse p (RA probe) (DEC probe)
    (RA_ERR_PLUS probe, - RA_ERR_MINUS probe)
    (DEC_ERR_PLUS probe, - DEC_ERR_MINUS probe) = false.
Proof.
  intros F. rewrite is_in_ellipse_masks. cbn [fst snd existsb].
  assert (Z : forall q, quadrant_mask q
                (rel_ra p (RA probe) (Qmin (RA_ERR_PLUS probe) (- RA_ERR_MINUS probe))
                   (Qmax (RA_ERR_PLUS probe) (- RA_ERR_MINUS probe)))
                (rel_dec p (DEC probe))
                (Qmin (RA_ERR_PLUS probe) (- RA_ERR_MINUS probe))
                (Qmax (RA_ERR_PLUS probe) (- RA_ERR_MINUS probe))
                (Qmin (DEC_ERR_PLUS probe) (- DEC_ERR_MINUS probe))
                (Qmax (DEC_ERR_PLUS probe) (- DEC_ERR_MINUS probe)) = false).
  { intros q. apply quadrant_mask_zero.
    destruct F as [[E1 E2] | [E1 E2]].
    - left.
      destruct (error_bounds (RA_ERR_PLUS probe) (RA_ERR_MINUS probe)) as [Rl Ru];
        [lra | lra |].
      unfold lower, upper in *. cbn [fst snd] in *.
      destruct q; cbn [semi_axes fst]; rewrite ?Rl, ?Ru; lra.
    - right.
      destruct (error_bounds (DEC_ERR_PLUS probe) (DEC_ERR_MINUS probe)) as [Dl Du];
        [lra | lra |].
      unfold lower, upper in *. cbn [fst snd] in *.
      destruct q; cbn [semi_axes snd]; rewrite ?Dl, ?Du; lra. }
  now rewrite !Z.
Qed.

Lemma flat_probe_touching (cos_deg sin_deg : Q -> Q) (alerts : catalog)
  (idx : Z) (probe : Alert) :
  flat_axis probe -> touching cos_deg sin_deg alerts idx probe = None.
Proof.
  intros F.
  assert (S : forall q, quadrant_step cos_deg sin_deg alerts idx probe None q = None).
  { intros [[theta er] ed]. unfold quadrant_step.
    destruct (any _) eqn:A; [|reflexivity].
    exfalso. unfold any in A. apply existsb_exists in A.
    destruct A as (row & Hrow & A). apply existsb_exists in A.
    destruct A as (b & Hb & ->).
    unfold in_ellipse_mask in Hrow. apply in_map_iff in Hrow.
    destruct Hrow as (r & <- & Hr). apply in_map_iff in Hb.
    destruct Hb as (p & Hp & _).
    rewrite (flat_probe_contains_nothing probe p F) in Hp. discriminate. }
  unfold touching.
  assert (G : forall qs, fold_left (quadrant_step cos_deg sin_deg alerts idx probe) qs None
                         = None).
  { induction qs as [|q qs IH]; [reflexivity|].
    cbn [fold_left]. now rewrite S. }
  apply G.
Qed.

(** The loops of the resolution pass on a graph that holds keys only: they
    run through or raise [TypeError], and they raise it when some entry is
    [None]. *)
Lemma check_double_type (g : graph) (a m : Z) (acc : list Z) :
  In a (keys g) -> In m (keys g) ->
  check_double g a acc m = Raise TypeError \/
  exists acc', check_double g a acc m = Ok acc'.
Proof.
  intros Ha Hm.
  apply dict_get_key in Hm. destruct Hm as [vm Em].
  apply dict_get_key in Ha. destruct Ha as [va Ea].
  unfold check_double, getitem. rewrite Em. cbn [bind].
  destruct vm as [lm|]; [|now left]. cbn [contains bind].
  destruct (mem a lm); [|eauto].
  rewrite Ea. cbn [bind]. destruct va as [la|]; [|now left]. cbn [len bind].
  destruct (length la <? length lm)%nat; [eauto|].
  destruct (length lm <? length la)%nat; eauto.
Qed.

Lemma inner_loop_type (g : graph) (a : Z) (l acc : list Z) :
  In a (keys g) -> (forall m, In m l -> In m (keys g)) ->
  for_each l (check_double g a) acc = Raise TypeError \/
  exists acc', for_each l (check_double g a) acc = Ok acc'.
Proof.
  intros Ha. revert acc. induction l as [|m l IH]; intros acc Hl; [simpl; eauto|].
  cbn [for_each].
  destruct (check_double_type g a m acc Ha) as [E | (acc' & E)];
    [auto with datatypes | | ]; rewrite E; cbn [bind]; [now left|].
  apply IH. auto with datatypes.
Qed.

Lemma outer_loop_type (g : graph) (ks acc : list Z) :
  closed g -> (forall a, In a ks -> In a (keys g)) ->
  (exists k, In k ks /\ dict_get g k = Some None) ->
  for_each ks
    (fun remove_multiplets_for_indices _index =>
       own <- getitem g _index ;;
       n <- len own ;;
       if (0 <? n)%nat then
         members <- iter own ;;
         for_each members (check_double g _index) remove_multiplets_for_indices
       else Ok remove_multiplets_for_indices)
    acc = Raise TypeError.
Proof.
  intros C. revert acc. induction ks as [|a ks IH]; intros acc Hks (k & Hk & Ek).
  - destruct Hk.
  - assert (Ha : In a (keys g)) by auto with datatypes.
    pose proof Ha as Ha'. apply dict_get_key in Ha'. destruct Ha' as [va Ea].
    cbn [for_each]. unfold getitem at 1. rewrite Ea. cbn [bind].
    destruct va as [la|]; [|reflexivity]. cbn [len bind].
    assert (Tail : exists k', In k' ks /\ dict_get g k' = Some None).
    { exists k. split; [|exact Ek]. destruct Hk as [->|Hk]; [congruence | exact Hk]. }
    destruct (0 <? length la)%nat.
    + cbn [iter bind].
      destruct (inner_loop_type g a la acc Ha) as [E | (acc' & E)].
      * intros m Hm. exact (C a la (dict_get_In _ _ _ Ea) m Hm).
      * now rewrite E.
      * rewrite E. cbn [bind]. apply IH; auto with datatypes.
    + cbn [bind]. apply IH; auto with datatypes.
Qed.

(** Property X9: a catalog with unique labels in which some alert has both errors of
    one axis equal to zero makes the function raise [TypeError]: that alert
    contains no point, its entry stays [None], and the resolution pass takes
    the length of every entry. *)
Theorem flat_alert_raises (cos_deg sin_deg : Q -> Q) (alerts : catalog)
  (i : Z) (a : Alert) :
  NoDup (index alerts) -> In (i, a) alerts -> flat_axis a ->
  get_multiplet_index_dictionary cos_deg sin_deg alerts = Raise TypeError.
Proof.
  intros ND Hin F. unfold get_multiplet_index_dictionary.
  rewrite (build_multiplets_rows cos_deg sin_deg alerts ND). cbn [bind].
  set (g := map (raw_entry cos_deg sin_deg alerts) alerts).
  assert (K : keys g = index alerts) by (unfold g, keys; now rewrite map_map).
  assert (C : closed g).
  { intros k l Hk m Hm. rewrite K.
    assert (NDg : NoDup (keys g)) by now rewrite K.
    apply (In_dict_get g k (Some l) NDg) in Hk.
    now apply (raw_entry_shape cos_deg sin_deg alerts k l ND Hk). }
  unfold resolve, collect_removals.
  rewrite (outer_loop_type g (keys g) [] C); [reflexivity | auto |].
  exists i. split.
  - rewrite K. change i with (fst (i, a)). now apply in_map.
  - unfold g. rewrite (raw_entry_lookup cos_deg sin_deg alerts i a ND Hin).
    now rewrite (flat_probe_touching cos_deg sin_deg alerts i a F).
Qed.

Lemma flat_alert_raises_witness :
  get_multiplet_index_dictionary cos_deg_rat sin_deg_rat flat_catalog = Raise TypeError.
Proof.
  apply (flat_alert_raises cos_deg_rat sin_deg_rat flat_catalog 1 (mkAlert 10 5 0 0 1 1)).
  - repeat constructor; simpl; intuition discriminate.
  - simpl; auto.
  - left. split; reflexivity.
Defined.

End GraphMore.

Module ResolveMore.
Import Multiplets DictFacts ResolveFacts Statements Examples MoreStatements MoreExamples.

(** The loops of the resolution pass on a graph whose entries are all
    sequences: they run through or raise [KeyError], and they raise it when
    an entry holds a label that is no key. *)
Lemma check_double_key (g : graph) (a m : Z) (acc : list Z) :
  all_sequences g -> In a (keys g) ->
  (In m (keys g) -> exists acc', check_double g a acc m = Ok acc') /\
  (~ In m (keys g) -> check_double g a acc m = Raise KeyError).
Proof.
  intros S Ha. unfold check_double, getitem. split.
  - intros Hm. apply dict_get_key in Hm. destruct Hm as [vm Em].
    apply dict_get_key in Ha. destruct Ha as [va Ea].
    rewrite Em. cbn [bind].
    destruct (S m vm (dict_get_In _ _ _ Em)) as (lm & ->). cbn [contains bind].
    destruct (mem a lm); [|eauto].
    rewrite Ea. cbn [bind].
    destruct (S a va (dict_get_In _ _ _ Ea)) as (la & ->). cbn [len bind].
    destruct (length la <? length lm)%nat; [eauto|].
    destruct (length lm <? length la)%nat; eauto.
  - intros Hm. apply dict_get_None in Hm. now rewrite Hm.
Qed.

Lemma inner_loop_key (g : graph) (a : Z) (l acc : list Z) :
  all_sequences g -> In a (keys g) ->
  (for_each l (check_double g a) acc = Raise KeyError \/
   exists acc', for_each l (check_double g a) acc = Ok acc') /\
  ((exists m, In m l /\ ~ In m (keys g)) ->
   for_each l (check_double g a) acc = Raise KeyError).
Proof.
  intros S Ha. revert acc. induction l as [|m l IH]; intros acc.
  - split; [simpl; eauto | intros (m & [] & _)].
  - cbn [for_each].
    destruct (check_double_key g a m acc S Ha) as [Hok Hbad].
    destruct (in_dec Z.eq_dec m (keys g)) as [Hm|Hm].
    + destruct (Hok Hm) as (acc' & ->). cbn [bind].
      destruct (IH acc') as [I1 I2]. split; [exact I1|].
      intros (x & [->|Hx] & Nx); [contradiction|]. apply I2. eauto.
    + rewrite (Hbad Hm). cbn [bind]. split; [now left | reflexivity].
Qed.

Lemma outer_loop_key (g : graph) (ks acc : list Z) :
  all_sequences g -> (forall a, In a ks -> In a (keys g)) ->
  (exists k l m, In k ks /\ dict_get g k = Some (Some l) /\ In m l /\ ~ In m (keys g)) ->
  for_each ks
    (fun remove_multiplets_for_indices _index =>
       own <- getitem g _index ;;
       n <- len own ;;
       if (0 <? n)%nat then
         members <- iter own ;;
         for_each members (check_double g _index) remove_multiplets_for_indices
       else Ok remove_multiplets_for_indices)
    acc = Raise KeyError.
Proof.
  intros S. revert acc.
  induction ks as [|a ks IH]; intros acc Hks (k & l & m & Hk & Ek & Hm & Nm).
  - destruct Hk.
  - assert (Ha : In a (keys g)) by auto with datatypes.
    pose proof Ha as Ha'. apply dict_get_key in Ha'. destruct Ha' as [va Ea].
    cbn [for_each]. unfold getitem at 1. rewrite Ea. cbn [bind].
    destruct (S a va (dict_get_In _ _ _ Ea)) as (la & ->). cbn [len bind].
    destruct (inner_loop_key g a la acc S Ha) as [I1 I2].
    destruct (Z.eq_dec a k) as [->|Nak].
    + assert (la = l) by congruence. subst la.
      destruct l as [|x l]; [destruct Hm|].
      change (0 <? length (x :: l))%nat with true. cbn [iter bind].
      rewrite I2 by eauto. reflexivity.
    + assert (Tail : exists k l m, In k ks /\ dict_get g k = Some (Some l)
                                   /\ In m l /\ ~ In m (keys g)).
      { exists k, l, m. repeat split; try assumption.
        destruct Hk as [E|Hk]; [congruence | exact Hk]. }
      destruct (0 <? length la)%nat.
      * cbn [iter bind]. destruct I1 as [E | (acc' & E)]; rewrite E; [reflexivity|].
        cbn [bind]. apply IH; auto with datatypes.
      * cbn [bind]. apply IH; auto with datatypes.
Qed.

(** Property X10: on a graph whose entries are all sequences and one of which holds a
    label that is no key of the graph, the resolution pass raises
    [KeyError]. *)
Theorem resolve_unknown_label (g : graph) (k m : Z) (l : list Z) :
  all_sequences g ->
  dict_get g k = Some (Some l) -> In m l -> ~ In m (keys g) ->
  resolve g = Raise KeyError.
Proof.
  intros S Ek Hm Nm. unfold resolve, collect_removals.
  rewrite (outer_loop_key g (keys g) [] S); [reflexivity | auto |].
  exists k, l, m. repeat split; try assumption.
  apply dict_get_key. eauto.
Qed.

Lemma resolve_unknown_label_witness : resolve dangling_graph = Raise KeyError.
Proof.
  apply (resolve_unknown_label dangling_graph 1 7 [7%Z]).
  - intros k v [H|[]]. injection H as <- <-. eauto.
  - reflexivity.
  - now left.
  - simpl. intuition discriminate.
Defined.

(** Property X11: on a multiplet graph the resolution pass returns a multiplet graph
    with the same keys in the same order, in which every entry is the one
    that came in or the empty sequence. *)
Theorem resolve_keeps_or_empties (g : graph) :
  well_formed g ->
  exists r,
    resolve g = Ok r /\ keys r = keys g /\ well_formed r /\
    forall k, dict_get r k = dict_get g k \/ dict_get r k = Some (Some []).
Proof.
  intros W. exists (resolve_two_pass g).
  split; [now apply resolve_refines|].
  split; [apply keys_apply_decisions|].
  split; [now apply well_formed_resolve_two_pass|].
  intros k. unfold resolve_two_pass. rewrite dict_get_apply_decisions.
  destruct (dict_get g k) as [v|]; [|now left].
  destruct (mem k (decisions g)); [now right | now left].
Qed.

Lemma well_formed_chain_graph : well_formed chain_graph.
Proof.
  split.
  - repeat constructor; simpl; intuition discriminate.
  - intros k v H. simpl in H.
    destruct H as [H|[H|[]]]; injection H as <- <-; eexists; (split; [reflexivity|]);
      simpl; intuition.
Qed.

Lemma resolve_keeps_or_empties_witness :
  exists r,
    resolve chain_graph = Ok r /\ keys r = keys chain_graph /\ well_formed r /\
    forall k, dict_get r k = dict_get chain_graph k \/ dict_get r k = Some (Some []).
Proof. apply (resolve_keeps_or_empties chain_graph). exact well_formed_chain_graph. Defined.

(** Property X12: the resolution pass leaves a multiplet graph as it is exactly when no
    two keys hold each other. *)
Theorem resolve_fixpoint_iff (g : graph) :
  well_formed g ->
  (resolve g = Ok g <-> forall a b, ~ mutual g a b).
Proof.
  intros W. rewrite (resolve_refines g W). split.
  - intros E a b M. injection E as E.
    pose proof (mutual_decision g a b M) as D.
    assert (L : dict_get (resolve_two_pass g) (loser g a b) = Some (Some [])).
    { unfold resolve_two_pass. rewrite dict_get_apply_decisions.
      destruct (well_formed_entry g _ W (decisions_keys g _ D)) as [-> _].
      apply mem_In in D. now rewrite D. }
    rewrite E in L.
    assert (N : members g (loser g a b) = []) by (unfold members; now rewrite L).
    destruct M as [Hb Ha].
    destruct (loser_cases g a b) as [R|R]; rewrite R in N.
    + rewrite N in Hb. destruct Hb.
    + rewrite N in Ha. destruct Ha.
  - intros NM. f_equal. unfold resolve_two_pass.
    destruct (decisions g) as [|k l] eqn:E; [apply apply_decisions_nil|].
    exfalso.
    assert (H : In k (decisions g)) by (rewrite E; now left).
    apply decisions_spec in H. destruct H as (a & b & _ & M & _).
    exact (NM a b M).
Qed.

Lemma resolve_fixpoint_iff_witness :
  resolve chain_graph = Ok chain_graph <-> forall a b, ~ mutual chain_graph a b.
Proof. apply (resolve_fixpoint_iff chain_graph). exact well_formed_chain_graph. Defined.

End ResolveMore.

Module AggregationMore.
Import Multiplets Weighted AggregationStatements AggregationExamples DictFacts BuilderFacts.
Import ModFacts AggregationFacts Statements Examples ResolveFacts TouchFacts WrapFacts.
Import ReturnedMapping AggregationTheorems MoreStatements MoreExamples EllipseFacts.

Lemma loc_cases (alerts : catalog) (i : Z) :
  (exists a, loc alerts i = Ok a) \/ loc alerts i = Raise KeyError.
Proof.
  induction alerts as [|[j b] r IH]; simpl; [now right|].
  destruct (Z.eqb i j); [eauto | exact IH].
Qed.

Lemma loc_label (alerts : catalog) (i : Z) :
  In i (index alerts) -> exists a, loc alerts i = Ok a.
Proof.
  induction alerts as [|[j b] r IH]; simpl; [tauto|].
  destruct (Z.eqb_spec i j) as [->|N]; [eauto|].
  intros [E|H]; [congruence | auto].
Qed.

Lemma rows_of_labels (alerts : catalog) (labels : list Z) :
  (forall i, In i labels -> In i (index alerts)) ->
  exists g, rows_of alerts labels = Some g.
Proof.
  induction labels as [|i r IH]; intros H; simpl; [eauto|].
  destruct (loc_label alerts i) as (a & ->); [auto with datatypes|].
  destruct IH as (g & ->); [auto with datatypes|]. eauto.
Qed.

Section Library.
Variable circmean : list Q -> list ext -> ext.
Variable np_sqrt : ext -> ext.

Lemma members_loop_missing (alerts : catalog) (ms : list Z) (acc : list row * list row) :
  rows_of alerts ms = None ->
  for_each ms
    (fun acc tmp_index_2 =>
       a2 <- loc alerts tmp_index_2 ;;
       Ok (fst acc ++ [position a2], snd acc ++ [symmetrized_error a2]))
    acc
  = Raise KeyError.
Proof.
  revert acc. induction ms as [|m ms IH]; intros acc H; simpl in *; [discriminate|].
  destruct (loc_cases alerts m) as [(a & E) | E]; rewrite E in *; [|reflexivity].
  cbn [bind]. apply IH. now destruct (rows_of alerts ms).
Qed.

(** A group with a label that is no row of the catalog. *)
Lemma get_multiplet_weighted_coords_missing (alerts : catalog) (k : Z) (ms : list Z) :
  rows_of alerts (k :: ms) = None ->
  get_multiplet_weighted_coords circmean np_sqrt k ms alerts = Raise KeyError.
Proof.
  intros H. simpl in H. unfold get_multiplet_weighted_coords.
  destruct (loc_cases alerts k) as [(a & E) | E]; rewrite E in *; [|reflexivity].
  cbn [bind]. rewrite members_loop_missing; [reflexivity|].
  now destruct (rows_of alerts ms).
Qed.

Lemma go_through_loop_missing (md : graph) (alerts : catalog) (ks : list Z)
  (out : dict erow * dict erow) :
  all_sequences md -> (forall a, In a ks -> In a (keys md)) ->
  (exists k m ms, In k ks /\ dict_get md k = Some (Some (m :: ms)) /\
                  rows_of alerts (k :: m :: ms) = None) ->
  for_each ks
    (fun out tmp_index =>
       tmp_mult_indices <- getitem md tmp_index ;;
       n <- len tmp_mult_indices ;;
       if (0 <? n)%nat then
         members <- iter tmp_mult_indices ;;
         c <- get_multiplet_weighted_coords circmean np_sqrt tmp_index members alerts ;;
         Ok (dict_set (fst out) tmp_index (fst c), dict_set (snd out) tmp_index (snd c))
       else Ok out)
    out
  = Raise KeyError.
Proof.
  intros S. revert out.
  induction ks as [|a ks IH]; intros out Hks (k & m & ms & Hk & Ek & Rk).
  - destruct Hk.
  - assert (Ha : In a (keys md)) by auto with datatypes.
    apply dict_get_key in Ha. destruct Ha as [va Ea].
    cbn [for_each]. unfold getitem at 1. rewrite Ea. cbn [bind].
    destruct (S a va (dict_get_In _ _ _ Ea)) as (la & ->). cbn [len bind].
    destruct (Z.eq_dec a k) as [->|Nak].
    + assert (la = m :: ms) by congruence. subst la.
      change (0 <? length (m :: ms))%nat with true. cbn [iter bind].
      now rewrite (get_multiplet_weighted_coords_missing alerts k (m :: ms) Rk).
    + assert (Tail : exists k m ms, In k ks /\ dict_get md k = Some (Some (m :: ms)) /\
                                    rows_of alerts (k :: m :: ms) = None).
      { exists k, m, ms. repeat split; try assumption.
        destruct Hk as [E|Hk]; [congruence | exact Hk]. }
      destruct la as [|x la].
      * cbn. apply IH; auto with datatypes.
      * change (0 <? length (x :: la))%nat with true. cbn [iter bind].
        destruct (rows_of alerts (a :: x :: la)) as [g|] eqn:R.
        -- rewrite (get_multiplet_weighted_coords_rows circmean np_sqrt alerts a (x :: la) g R).
           cbn [bind]. apply IH; auto with datatypes.
        -- now rewrite (get_multiplet_weighted_coords_missing alerts a (x :: la) R).
Qed.

End Library.

(** Property X14: when the entries of the dictionary are all sequences and a non-empty
    group holds a label, its own key included, that is no row of the
    catalog, the aggregation raises [KeyError]. *)
Theorem aggregation_missing_row (circmean : list Q -> list ext -> ext)
  (np_sqrt : ext -> ext) (md : graph) (alerts : catalog) (k m : Z) (ms : list Z) :
  all_sequences md ->
  dict_get md k = Some (Some (m :: ms)) ->
  rows_of alerts (k :: m :: ms) = None ->
  go_through_multiplet_dict circmean np_sqrt md alerts = Raise KeyError.
Proof.
  intros S Ek Rk. unfold go_through_multiplet_dict.
  apply go_through_loop_missing; [exact S | auto |].
  exists k, m, ms. repeat split; try assumption.
  apply dict_get_key. eauto.
Qed.

Lemma aggregation_missing_row_witness :
  go_through_multiplet_dict circmean_one sqrt_squares pair_graph south_catalog
  = Raise KeyError.
Proof.
  apply (aggregation_missing_row circmean_one sqrt_squares pair_graph south_catalog
           1 2 []).
  - intros k v H. simpl in H.
    destruct H as [H|[H|[]]]; injection H as <- <-; eauto.
  - reflexivity.
  - reflexivity.
Defined.


Lemma inv_square_zero (s : Q) : s == 0 -> inv_square s = PInf.
Proof.
  intros H. unfold inv_square, ext_div.
  assert (Z : Qeq_zero (s ^ 2) = true) by (apply Qeq_zero_iff, Qsqr_zero, H).
  rewrite Z. reflexivity.
Qed.

Lemma column_sum_infinite (w : list ext) (acc : ext) :
  (forall e, In e w -> e = PInf \/ exists q, e = Fin q) ->
  (acc = PInf \/ exists q, acc = Fin q) ->
  (acc = PInf \/ In PInf w) ->
  fold_left ext_add w acc = PInf.
Proof.
  revert acc. induction w as [|e w IH]; intros acc Hw Hacc H; simpl.
  - destruct H as [H|[]]. exact H.
  - assert (He : e = PInf \/ exists q, e = Fin q) by auto with datatypes.
    apply IH; [auto with datatypes | |].
    + destruct Hacc as [->|(q & ->)]; destruct He as [->|(q' & ->)]; simpl; eauto.
    + destruct H as [->|[->|H]]; [| |now right].
      * left. destruct He as [->|(q' & ->)]; reflexivity.
      * left. destruct Hacc as [->|(q & ->)]; reflexivity.
Qed.

Lemma inv_square_cases (s : Q) : inv_square s = PInf \/ exists q, inv_square s = Fin q.
Proof.
  destruct (Qeq_dec s 0) as [E|E]; [left; now apply inv_square_zero|].
  right. unfold inv_square, ext_div. destruct (Qeq_zero (s ^ 2)) eqn:Z; [|eauto].
  exfalso. apply E, Qsqr_zero, Qeq_zero_iff, Z.
Qed.

Lemma weight_sum_infinite (sigmas : list Q) :
  (exists s, In s sigmas /\ s == 0) ->
  column_sum (map inv_square sigmas) = PInf.
Proof.
  intros (s & Hs & Z). unfold column_sum. apply column_sum_infinite.
  - intros e He. apply in_map_iff in He. destruct He as (t & <- & _).
    apply inv_square_cases.
  - right. eauto.
  - right. rewrite <- (inv_square_zero s Z). now apply in_map.
Qed.

(** Property X16: a group that holds an alert whose symmetrized error on an axis is
    zero has an infinite sum of weights on that axis, and, the square root
    of [inf] being [inf], a combined uncertainty of 0 there. *)
Theorem zero_error_zero_uncertainty (circmean : list Q -> list ext -> ext)
  (np_sqrt : ext -> ext) (x sigma : list row) :
  np_sqrt PInf = PInf ->
  ((exists r, In r sigma /\ fst r == 0) ->
   fst (snd (get_weighted_coords circmean np_sqrt x sigma)) = Fin 0) /\
  ((exists r, In r sigma /\ snd r == 0) ->
   snd (snd (get_weighted_coords circmean np_sqrt x sigma)) = Fin 0).
Proof.
  intros R. unfold get_weighted_coords. cbn [fst snd].
  split; intros (r & Hr & Z).
  - rewrite <- (map_map fst inv_square), weight_sum_infinite, R; [reflexivity|].
    exists (fst r). split; [now apply in_map | exact Z].
  - rewrite <- (map_map snd inv_square), weight_sum_infinite, R; [reflexivity|].
    exists (snd r). split; [now apply in_map | exact Z].
Qed.

Lemma zero_error_zero_uncertainty_witness :
  ((exists r, In r [(0, 1); (1, 0)] /\ fst r == 0) ->
   fst (snd (get_weighted_coords circmean_one sqrt_squares
               [(10, 5); (11, 5)] [(0, 1); (1, 0)])) = Fin 0) /\
  ((exists r, In r [(0, 1); (1, 0)] /\ snd r == 0) ->
   snd (snd (get_weighted_coords circmean_one sqrt_squares
               [(10, 5); (11, 5)] [(0, 1); (1, 0)])) = Fin 0).
Proof.
  apply (zero_error_zero_uncertainty circmean_one sqrt_squares
           [(10, 5); (11, 5)] [(0, 1); (1, 0)]).
  reflexivity.
Defined.


Lemma contribution_labels (circmean : list Q -> list ext -> ext) (np_sqrt : ext -> ext)
  (md : graph) (alerts : catalog) (l : graph) :
  aggregable md alerts -> (forall kv, In kv l -> In kv md) ->
  map fst (flat_map (contribution circmean np_sqrt alerts) l)
  = map fst (filter nonempty_group l).
Proof.
  intros A. induction l as [|[k v] l IH]; intros Hl; [reflexivity|].
  cbn [flat_map filter]. rewrite map_app, IH by auto with datatypes.
  destruct (A k v) as (ms & -> & Hrows); [auto with datatypes|].
  unfold contribution, nonempty_group. cbn [fst snd].
  destruct ms as [|m ms]; [reflexivity|].
  destruct Hrows as (g & ->); [discriminate|]. reflexivity.
Qed.

(** Property X17: the two dictionaries the aggregation returns have the same keys: the
    keys of the non-empty groups, in the order of the input. *)
Theorem aggregation_keys (circmean : list Q -> list ext -> ext)
  (np_sqrt : ext -> ext) (md : graph) (alerts : catalog) :
  NoDup (keys md) -> aggregable md alerts ->
  exists wx ws,
    go_through_multiplet_dict circmean np_sqrt md alerts = Ok (wx, ws) /\
    keys wx = map fst (filter nonempty_group md) /\
    keys ws = keys wx.
Proof.
  intros ND A.
  exists (positions_of (flat_map (contribution circmean np_sqrt alerts) md)),
         (sigmas_of (flat_map (contribution circmean np_sqrt alerts) md)).
  split; [now apply go_through_multiplet_dict_value|].
  unfold keys, positions_of, sigmas_of. rewrite !map_map. cbn [fst].
  split; [|reflexivity].
  now apply (contribution_labels circmean np_sqrt md alerts md A).
Qed.

Lemma aggregation_keys_witness :
  exists wx ws,
    go_through_multiplet_dict circmean_one sqrt_squares chain_graph twin_catalog
      = Ok (wx, ws) /\
    keys wx = map fst (filter nonempty_group chain_graph) /\
    keys ws = keys wx.
Proof.
  apply (aggregation_keys circmean_one sqrt_squares chain_graph twin_catalog).
  - repeat constructor; simpl; intuition discriminate.
  - intros k v H. simpl in H.
    destruct H as [H|[H|[]]]; injection H as <- <-; eexists; (split; [reflexivity|]);
      intros _; eexists; reflexivity.
Defined.

Lemma threshold_variant_never_stores_witness :
  go_through_threshold_multiplet_dict circmean_one sqrt_squares
    empty_thresholds twin_catalog = Ok ([], []) /\
  (([], []) : dict (dict erow) * dict (dict erow)) = ([], []).
Proof.
  split; [reflexivity|].
  apply (threshold_variant_never_stores circmean_one sqrt_squares
           empty_thresholds twin_catalog).
  reflexivity.
Defined.

Lemma threshold_loop_name_error {X : Type} (circmean : list Q -> list ext -> ext)
  (np_sqrt : ext -> ext) (d : dict (X * graph)) (alerts : catalog) (ks : list Z)
  (out : dict (dict erow) * dict (dict erow)) :
  (forall k, In k ks -> exists item w,
     dict_get d k = Some item /\
     go_through_multiplet_dict circmean np_sqrt (snd item) alerts = Ok w) ->
  (exists k item w,
     In k ks /\ dict_get d k = Some item /\
     go_through_multiplet_dict circmean np_sqrt (snd item) alerts = Ok w /\
     fst w <> []) ->
  for_each ks
    (fun out tmp_area =>
       item <- getitem d tmp_area ;;
       let tmp_multiplets := snd item in
       w <- go_through_multiplet_dict circmean np_sqrt tmp_multiplets alerts ;;
       if (0 <? length (fst w))%nat then
         tmp_threshold <- load_name [("tmp_area"%string, tmp_area)] "tmp_threshold" ;;
         Ok (dict_set (fst out) tmp_threshold (fst w),
             dict_set (snd out) tmp_threshold (snd w))
       else Ok out)
    out = Raise NameError.
Proof.
  revert out. induction ks as [|a ks IH]; intros out Hall (k & item & w & Hk & Ek & Ew & Nw).
  - destruct Hk.
  - destruct (Hall a) as (ia & wa & Ea & Ewa); [now left|].
    cbn [for_each]. unfold getitem at 1. rewrite Ea. cbn [bind]. rewrite Ewa. cbn [bind].
    destruct (0 <? length (fst wa))%nat eqn:L; [reflexivity|].
    cbn [bind]. apply IH; [auto with datatypes|].
    exists k, item, w. repeat split; try assumption.
    destruct Hk as [->|Hk]; [|exact Hk].
    exfalso. assert (ia = item) by congruence. subst ia.
    assert (wa = w) by congruence. subst wa.
    destruct (fst w); [now apply Nw | discriminate].
Qed.

(** Property X19: when the aggregation of every threshold runs through and that of some
    threshold is not empty, the threshold variant raises [NameError]. *)
Theorem threshold_variant_name_error {X : Type} (circmean : list Q -> list ext -> ext)
  (np_sqrt : ext -> ext) (d : dict (X * graph)) (alerts : catalog)
  (k : Z) (item : X * graph) (w : dict erow * dict erow) :
  (forall k', In k' (keys d) -> exists item' w',
     dict_get d k' = Some item' /\
     go_through_multiplet_dict circmean np_sqrt (snd item') alerts = Ok w') ->
  dict_get d k = Some item ->
  go_through_multiplet_dict circmean np_sqrt (snd item) alerts = Ok w ->
  fst w <> [] ->
  go_through_threshold_multiplet_dict circmean np_sqrt d alerts = Raise NameError.
Proof.
  intros Hall Ek Ew Nw. unfold go_through_threshold_multiplet_dict.
  apply threshold_loop_name_error; [exact Hall|].
  exists k, item, w. repeat split; try assumption.
  apply dict_get_key. eauto.
Qed.

Lemma threshold_variant_name_error_witness :
  go_through_threshold_multiplet_dict circmean_one sqrt_squares
    threshold_example twin_catalog = Raise NameError.
Proof.
  eapply (threshold_variant_name_error circmean_one sqrt_squares
            threshold_example twin_catalog 5).
  - intros k' [<-|[]]. eexists. eexists. split; reflexivity.
  - reflexivity.
  - reflexivity.
  - discriminate.
Defined.


Lemma positive_errors_twin_catalog :
  forall i a, In (i, a) twin_catalog -> positive_errors a.
Proof.
  intros i a H. simpl in H.
  destruct H as [H|[H|[]]]; injection H as _ <-; repeat split; reflexivity.
Qed.



End AggregationMore.
